(** * split_csv_rows: a shallow embedding of [glue_scripts/split_csv_rows.py]

    The script reads one CSV object, writes one object per data row, then a
    manifest and a run report.  Python [str] values are sequences of Unicode
    code points and are modelled as [list N]; the dictionary [name_counts] is
    a [gmap]; the mutable locals of [main] are threaded through an
    exception-and-state monad. *)

From Stdlib Require Import NArith Ascii String Decimal DecimalNat.
From stdpp Require Import gmap list.

Local Open Scope N_scope.

(** ** Python strings *)

Definition chr (a : ascii) : N := N_of_ascii a.
Definition str (s : string) : list N := chr <$> list_ascii_of_string s.

(** [s.startswith(p)] *)
Fixpoint startswith (p s : list N) : bool :=
  match p, s with
  | [], _ => true
  | _ :: _, [] => false
  | a :: p', b :: s' => (a =? b) && startswith p' s'
  end.

(** The first occurrence of [sep] in [s]: the text before it and the text
    after it.  This is the search behind [str.partition] and [str.split]. *)
Fixpoint find_sep (sep s : list N) : option (list N * list N) :=
  if startswith sep s then Some ([], drop (length sep) s)
  else match s with
       | [] => None
       | c :: s' =>
           match find_sep sep s' with
           | Some (before, after) => Some (c :: before, after)
           | None => None
           end
       end.

(** [s.partition(sep)] *)
Definition py_partition (sep s : list N) : list N * list N * list N :=
  match find_sep sep s with
  | Some (before, after) => (before, sep, after)
  | None => (s, [], [])
  end.

(** [s.split(sep, 1)] *)
Definition split1 (sep s : list N) : list (list N) :=
  match find_sep sep s with
  | Some (before, after) => [before; after]
  | None => [s]
  end.

(** [s.endswith(p)] *)
Definition endswith (p s : list N) : bool :=
  startswith (reverse p) (reverse s).

(** [s.lstrip(chars)], [s.rstrip(chars)], [s.strip(chars)], with the
    character set given as a predicate. *)
Fixpoint lstrip (drop_it : N -> bool) (s : list N) : list N :=
  match s with
  | [] => []
  | c :: s' => if drop_it c then lstrip drop_it s' else s
  end.

Definition rstrip (drop_it : N -> bool) (s : list N) : list N :=
  reverse (lstrip drop_it (reverse s)).

Definition strip (drop_it : N -> bool) (s : list N) : list N :=
  rstrip drop_it (lstrip drop_it s).

(** The code points [str.strip()] removes when called without argument
    (CPython's [Py_UNICODE_ISSPACE]). *)
Definition isspace (c : N) : bool :=
  ((9 <=? c) && (c <=? 13)) || ((28 <=? c) && (c <=? 32))
  || (c =? 133) || (c =? 160) || (c =? 5760)
  || ((8192 <=? c) && (c <=? 8202))
  || (c =? 8232) || (c =? 8233) || (c =? 8239) || (c =? 8287) || (c =? 12288).

(** [str(n)] for a non-negative integer. *)
Fixpoint uint_digits (d : Decimal.uint) : list N :=
  match d with
  | Nil => []
  | D0 d => 48 :: uint_digits d
  | D1 d => 49 :: uint_digits d
  | D2 d => 50 :: uint_digits d
  | D3 d => 51 :: uint_digits d
  | D4 d => 52 :: uint_digits d
  | D5 d => 53 :: uint_digits d
  | D6 d => 54 :: uint_digits d
  | D7 d => 55 :: uint_digits d
  | D8 d => 56 :: uint_digits d
  | D9 d => 57 :: uint_digits d
  end.

Definition str_of_nat (n : nat) : list N := uint_digits (Nat.to_uint n).

(** ** URI parser *)

(** [parse_s3_uri]; [None] is the [ValueError]. *)
Definition parse_s3_uri (uri : list N) : option (list N * list N) :=
  if negb (startswith (str "s3://") uri) then None
  else
    let '(_, _sep, rest) := py_partition (str "s3://") uri in
    let parts := split1 (str "/") rest in
    let bucket := default [] (parts !! 0%nat) in
    let key := if decide (1 < length parts)%nat
               then default [] (parts !! 1%nat) else [] in
    Some (bucket, key).

(** [normalize_prefix]: a non-empty prefix gets a trailing slash. *)
Definition normalize_prefix (prefix : list N) : list N :=
  if bool_decide (prefix ≠ []) && negb (endswith (str "/") prefix)
  then prefix ++ str "/"
  else prefix.

(** ** Name sanitizer *)

(** The complement of the character class [[^A-Za-z0-9._-]]. *)
Definition allowed (c : N) : bool :=
  ((65 <=? c) && (c <=? 90)) || ((97 <=? c) && (c <=? 122))
  || ((48 <=? c) && (c <=? 57))
  || (c =? chr ".") || (c =? chr "_") || (c =? chr "-").

(** [re.sub(r"[^A-Za-z0-9._-]+", "_", s)]: every maximal run of characters
    outside the class becomes one underscore.  [in_run] tells that the
    previous character already belonged to the run being replaced. *)
Fixpoint sub_runs (in_run : bool) (s : list N) : list N :=
  match s with
  | [] => []
  | c :: s' =>
      if allowed c then c :: sub_runs false s'
      else if in_run then sub_runs true s'
      else chr "_" :: sub_runs true s'
  end.

Definition re_sub_disallowed (s : list N) : list N := sub_runs false s.

(** The set ["._-"] of [cleaned.strip("._-")]. *)
Definition is_trim (c : N) : bool :=
  (c =? chr ".") || (c =? chr "_") || (c =? chr "-").

Definition safe_filename (name : list N) : list N :=
  let cleaned := re_sub_disallowed (strip isspace name) in
  let cleaned := strip is_trim cleaned in
  match cleaned with
  | [] => str "unnamed"
  | _ => cleaned
  end.

(** [str2bool].  [value.lower()] maps [A]-[Z] to [a]-[z] and leaves the other
    ASCII characters alone; what it does to a character outside ASCII is a
    matter of the Unicode tables (and, for the final sigma, of the
    surrounding text), so that part is taken from the interface
    [External] below. *)
Definition ascii_lower (c : N) : N :=
  if (65 <=? c) && (c <=? 90) then c + 32 else c.

Definition truthy_words : list (list N) :=
  [str "1"; str "true"; str "t"; str "yes"; str "y"].

(** Truth value of a Python string, and [x or y] on strings. *)
Definition py_or (x y : list N) : list N :=
  match x with
  | [] => y
  | _ :: _ => x
  end.

(** ** Data model of a run *)

(** A row as [csv.DictReader] yields it: a dictionary from column name to a
    string or to Python's [None] (the filler of a short record), and, for a
    record longer than the header, the surplus fields under the key
    [None]. *)
Record row := {
  cells : gmap (list N) (option (list N));
  restkey : option (list (list N));
}.

(** What the reader gives when asked for [fieldnames]: the construction of
    the stream or the reading of the first record raises, or the field names
    are [None] (no record at all) or a list (empty for a blank first
    line). *)
Inductive header :=
  | HeaderRaises
  | Fieldnames (f : option (list (list N))).

(** The input object seen through the reader: the header, then one item per
    iteration step, [None] where the reader raises instead of yielding. *)
Record csv_source := {
  src_header : header;
  src_rows : list (option row);
}.

Inductive exn :=
  | InvalidUri        (* ValueError of parse_s3_uri *)
  | ReadFailed        (* get_object, decoding or csv error on the header *)
  | NoHeader          (* RuntimeError: no fieldnames detected *)
  | RowReadFailed     (* decoding or csv error while iterating *)
  | WriteRowFailed    (* ValueError of DictWriter: fields not in fieldnames *)
  | EncodeFailed      (* UnicodeEncodeError *)
  | PutFailed.        (* put_object raised *)

Record file_record := {
  s3_uri : list N;
  row_index : nat;
  source_identifier : list N;
}.

(** The JSON documents, before [json.dumps]. The two timing fields of the
    summary and the traceback text of the failure report are left out. *)
Record manifest_doc := {
  m_input : list N;
  m_output_prefix : list N;
  m_files : list file_record;
  m_total_rows : nat;
  m_id_column : list N;
}.

Record summary_doc := {
  s_input : list N;
  s_output_prefix : list N;
  s_total_rows : nat;
  s_id_column : list N;
  s_fieldnames : option (list (list N));
  s_manifest : list N;
}.

Record failure_doc := {
  f_error : exn;
  f_input : list N;
  f_output_prefix : list N;
  f_processed_rows : nat;
  f_id_column : list N;
  f_fieldnames : option (list (list N));
}.

Inductive body :=
  | RowData (data : list Byte.byte)
  | ManifestJson (m : manifest_doc)
  | SummaryJson (d : summary_doc)
  | FailedJson (d : failure_doc).

Inductive content_type := TextCsv | ApplicationJson | TextPlain.

Record put_request := {
  Bucket : list N;
  Key : list N;
  Body : body;
  ContentType : content_type;
}.

(** The namespace [args_ns] built from the job parameters. *)
Record args_ns := {
  job_name : list N;
  input_s3_uri : list N;
  output_s3_uri : list N;
  id_column : list N;
  delimiter : list N;
  quotechar : list N;
  include_header : list N;
  encoding : list N;
  log_level : list N;
  write_run_log : list N;
}.

(** The Glue branch of the parameter resolution: [params] holds the
    options that were supplied, a missing optional gets its default, a
    missing required one is a [KeyError] ([None]). *)
Definition args_from_params (environ params : gmap (list N) (list N))
  : option args_ns :=
  match params !! str "input_s3_uri", params !! str "output_s3_uri" with
  | Some input, Some output =>
      Some {|
        job_name := default (str "unknown") (params !! str "JOB_NAME");
        input_s3_uri := input;
        output_s3_uri := output;
        id_column := default (str "source_identifier") (params !! str "id_column");
        delimiter := default (str ",") (params !! str "delimiter");
        quotechar := default [34] (params !! str "quotechar");
        include_header := default (str "true") (params !! str "include_header");
        encoding := default (str "utf-8") (params !! str "encoding");
        log_level := default (default (str "INFO") (environ !! str "LOG_LEVEL"))
                             (params !! str "log_level");
        write_run_log := default (str "true") (params !! str "write_run_log");
      |}
  | _, _ => None
  end.

(** The mutable locals of [main] that outlive the [try] block, together
    with the object store: the requests that succeeded, in order, and the
    number of [put_object] calls made so far. *)
Record locals := {
  manifest : list file_record;
  name_counts : gmap (list N) nat;
  total : nat;
  fieldnames : option (list (list N));
  manifest_key : option (list N);
  s3_objects : list put_request;
  s3_calls : nat;
  committed : bool;
}.

Definition initial : locals := {|
  manifest := [];
  name_counts := ∅;
  total := 0;
  fieldnames := None;
  manifest_key := None;
  s3_objects := [];
  s3_calls := 0;
  committed := false;
|}.

(** The collaborators of the script that are not part of it. *)
Class External := {
  (** [str.lower] on one non-ASCII character, given the text before and
      after it. *)
  lower_other : list N -> N -> list N -> list N;
  (** [csv.writer]: the text of one record for a delimiter, a quote
      character and the fields, without the line terminator. *)
  csv_record : list N -> list N -> list (list N) -> list N;
  (** [text.encode(encoding)]; [None] is [UnicodeEncodeError]. *)
  encode : list N -> list N -> option (list Byte.byte);
  (** Whether the [n]-th call of [put_object] (counted from 0) raises on
      the given request. *)
  put_fails : nat -> put_request -> bool;
}.

(** ** Exceptions and state *)

(** A computation over the locals that returns or raises; the locals as
    they are at the raise stay visible to the handler. *)
Definition M (A : Type) : Type := locals -> (exn + A) * locals.

Definition ret {A} (a : A) : M A := fun s => (inr a, s).
Definition raise {A} (e : exn) : M A := fun s => (inl e, s).
Definition bind {A B} (m : M A) (k : A -> M B) : M B :=
  fun s =>
    match m s with
    | (inr a, s') => k a s'
    | (inl e, s') => (inl e, s')
    end.
Definition gets {A} (f : locals -> A) : M A := fun s => (inr (f s), s).
Definition modify (f : locals -> locals) : M unit := fun s => (inr tt, f s).

Notation "x <- m ;; k" := (bind m (fun x => k))
  (at level 100, m at next level, right associativity).
Notation "m ;; k" := (bind m (fun _ => k))
  (at level 100, right associativity).

Definition set_total (n : nat) (s : locals) : locals :=
  {| manifest := manifest s; name_counts := name_counts s; total := n;
     fieldnames := fieldnames s; manifest_key := manifest_key s;
     s3_objects := s3_objects s; s3_calls := s3_calls s;
     committed := committed s |}.

Definition set_name_counts (c : gmap (list N) nat) (s : locals) : locals :=
  {| manifest := manifest s; name_counts := c; total := total s;
     fieldnames := fieldnames s; manifest_key := manifest_key s;
     s3_objects := s3_objects s; s3_calls := s3_calls s;
     committed := committed s |}.

Definition set_manifest (m : list file_record) (s : locals) : locals :=
  {| manifest := m; name_counts := name_counts s; total := total s;
     fieldnames := fieldnames s; manifest_key := manifest_key s;
     s3_objects := s3_objects s; s3_calls := s3_calls s;
     committed := committed s |}.

Definition set_fieldnames (f : option (list (list N))) (s : locals) : locals :=
  {| manifest := manifest s; name_counts := name_counts s; total := total s;
     fieldnames := f; manifest_key := manifest_key s;
     s3_objects := s3_objects s; s3_calls := s3_calls s;
     committed := committed s |}.

Definition set_manifest_key (k : option (list N)) (s : locals) : locals :=
  {| manifest := manifest s; name_counts := name_counts s; total := total s;
     fieldnames := fieldnames s; manifest_key := k;
     s3_objects := s3_objects s; s3_calls := s3_calls s;
     committed := committed s |}.

Definition set_s3 (objs : list put_request) (calls : nat) (s : locals) : locals :=
  {| manifest := manifest s; name_counts := name_counts s; total := total s;
     fieldnames := fieldnames s; manifest_key := manifest_key s;
     s3_objects := objs; s3_calls := calls;
     committed := committed s |}.

Definition set_committed (s : locals) : locals :=
  {| manifest := manifest s; name_counts := name_counts s; total := total s;
     fieldnames := fieldnames s; manifest_key := manifest_key s;
     s3_objects := s3_objects s; s3_calls := s3_calls s;
     committed := true |}.

(** ** The row splitter *)

(** [row.get(key)], with Python's [None] and a missing key both [None]. *)
Definition row_get (r : row) (key : list N) : option (list N) :=
  mjoin (cells r !! key).

(** [f"row-{idx}"] *)
Definition row_fallback (idx : nat) : list N := str "row-" ++ str_of_nat idx.

(** [row.get(args_ns.id_column) or f"row-{idx}"] *)
Definition raw_name (id_col : list N) (idx : nat) (r : row) : list N :=
  py_or (default [] (row_get r id_col)) (row_fallback idx).

(** [safe_filename(str(raw_name)) or f"row-{idx}"] *)
Definition base_name (id_col : list N) (idx : nat) (r : row) : list N :=
  py_or (safe_filename (raw_name id_col idx r)) (row_fallback idx).

(** [base_name if count == 0 else f"{base_name}-{count}"] *)
Definition final_name (base : list N) (count : nat) : list N :=
  if (count =? 0)%nat then base else base ++ str "-" ++ str_of_nat count.

(** [f"{output_prefix}{final_name}.csv"] *)
Definition out_key (output_prefix final : list N) : list N :=
  output_prefix ++ final ++ str ".csv".

(** The four kinds of [put_object] request the script makes. *)
Definition row_request (output_bucket key : list N) (data : list Byte.byte)
  : put_request :=
  {| Bucket := output_bucket; Key := key;
     Body := RowData data; ContentType := TextCsv |}.

(** [f"s3://{output_bucket}/{output_prefix}"] *)
Definition prefix_uri (output_bucket output_prefix : list N) : list N :=
  str "s3://" ++ output_bucket ++ str "/" ++ output_prefix.

(** [f"{output_prefix}_MANIFEST.json"] *)
Definition manifest_key_of (output_prefix : list N) : list N :=
  output_prefix ++ str "_MANIFEST.json".

Definition manifest_request (a : args_ns) (output_bucket output_prefix : list N)
    (files : list file_record) (n : nat) : put_request :=
  {| Bucket := output_bucket; Key := manifest_key_of output_prefix;
     Body := ManifestJson
       {| m_input := input_s3_uri a;
          m_output_prefix := prefix_uri output_bucket output_prefix;
          m_files := files;
          m_total_rows := n;
          m_id_column := id_column a |};
     ContentType := ApplicationJson |}.

Definition summary_request (a : args_ns) (output_bucket output_prefix : list N)
    (n : nat) (f : option (list (list N))) : put_request :=
  {| Bucket := output_bucket;
     Key := output_prefix ++ str "RUN_SUMMARY.json";
     Body := SummaryJson
       {| s_input := input_s3_uri a;
          s_output_prefix := prefix_uri output_bucket output_prefix;
          s_total_rows := n;
          s_id_column := id_column a;
          s_fieldnames := f;
          s_manifest :=
            str "s3://" ++ output_bucket ++ str "/"
              ++ manifest_key_of output_prefix |};
     ContentType := ApplicationJson |}.

Definition failure_request (a : args_ns) (output_bucket output_prefix : list N)
    (e : exn) (n : nat) (f : option (list (list N))) : put_request :=
  {| Bucket := output_bucket;
     Key := output_prefix ++ str "RUN_FAILED.txt";
     Body := FailedJson
       {| f_error := e;
          f_input := input_s3_uri a;
          f_output_prefix := prefix_uri output_bucket output_prefix;
          f_processed_rows := n;
          f_id_column := id_column a;
          f_fieldnames := f |};
     ContentType := TextPlain |}.

(** The manifest entry of a row. *)
Definition file_entry (output_bucket key : list N) (idx : nat) (raw : list N)
  : file_record :=
  {| s3_uri := str "s3://" ++ output_bucket ++ str "/" ++ key;
     row_index := idx;
     source_identifier := raw |}.

(** [DictWriter._dict_to_list]: a key outside the field names is a
    [ValueError]; a missing or [None] value is written as the empty
    string. *)
Definition dict_to_list (fields : list (list N)) (r : row)
  : option (list (list N)) :=
  if bool_decide (restkey r = None ∧ dom (cells r) ⊆ list_to_set fields)
  then Some ((fun key => default [] (row_get r key)) <$> fields)
  else None.

Section WithExternal.
Context {ext : External}.

(** [str(value).lower()] *)
Fixpoint lower_from (before s : list N) : list N :=
  match s with
  | [] => []
  | c :: s' =>
      (if c <? 128 then [ascii_lower c] else lower_other before c s')
        ++ lower_from (before ++ [c]) s'
  end.

Definition lower (s : list N) : list N := lower_from [] s.

Definition str2bool (value : list N) : bool :=
  bool_decide (lower value ∈ truthy_words).

(** [s3.put_object(...)] *)
Definition put_object (req : put_request) : M unit :=
  fun s =>
    if put_fails (s3_calls s) req
    then (inl PutFailed, set_s3 (s3_objects s) (S (s3_calls s)) s)
    else (inr tt, set_s3 (s3_objects s ++ [req]) (S (s3_calls s)) s).

(** The text in [buf] after the optional [writeheader] and the
    [writerow], with the line terminator ["\n"]. *)
Definition row_text (a : args_ns) (with_header : bool)
    (fields : list (list N)) (r : row) : option (list N) :=
  let head :=
    if with_header
    then csv_record (delimiter a) (quotechar a) fields ++ [10]
    else [] in
  match dict_to_list fields r with
  | Some values =>
      Some (head ++ csv_record (delimiter a) (quotechar a) values ++ [10])
  | None => None
  end.

(** One turn of the loop over [enumerate(reader, start=1)]. *)
Definition process_row (a : args_ns) (with_header : bool)
    (output_bucket output_prefix : list N) (fields : list (list N))
    (idx : nat) (r : row) : M unit :=
  n <- gets total;;
  modify (set_total (n + 1)%nat);;
  let raw := raw_name (id_column a) idx r in
  let base := base_name (id_column a) idx r in
  count <- gets (fun s => default 0%nat (name_counts s !! base));;
  modify (fun s =>
       set_name_counts (<[base := (count + 1)%nat]> (name_counts s)) s);;
  let final := final_name base count in
  let key := out_key output_prefix final in
  text <- match row_text a with_header fields r with
             | Some t => ret t
             | None => raise WriteRowFailed
             end;;
  data <- match encode (encoding a) text with
             | Some d => ret d
             | None => raise EncodeFailed
             end;;
  put_object (row_request output_bucket key data);;
  modify (fun s =>
    set_manifest (manifest s ++ [file_entry output_bucket key idx raw]) s).

Fixpoint for_rows (a : args_ns) (with_header : bool)
    (output_bucket output_prefix : list N) (fields : list (list N))
    (idx : nat) (items : list (option row)) : M unit :=
  match items with
  | [] => ret tt
  | None :: _ => raise RowReadFailed
  | Some r :: rest =>
      process_row a with_header output_bucket output_prefix fields idx r;;
      for_rows a with_header output_bucket output_prefix fields (S idx) rest
  end.

(** The body of the [try] block. *)
Definition try_block (a : args_ns) (with_header with_log : bool)
    (output_bucket output_prefix : list N) (src : csv_source) : M unit :=
  match src_header src with
  | HeaderRaises => raise ReadFailed
  | Fieldnames f =>
      modify (set_fieldnames f);;
      match f with
      | None | Some [] => raise NoHeader
      | Some fields =>
          for_rows a with_header output_bucket output_prefix fields 1
                      (src_rows src);;
          modify (set_manifest_key (Some (manifest_key_of output_prefix)));;
          files <- gets manifest;;
          n <- gets total;;
          put_object
               (manifest_request a output_bucket output_prefix files n);;
          if with_log then
            put_object (summary_request a output_bucket output_prefix n f)
          else ret tt
      end
  end.

(** The [except] clause: the failure report is attempted when reporting is
    on, an exception of that attempt is dropped, and the original exception
    is raised again. *)
Definition except_block (a : args_ns) (with_log : bool)
    (output_bucket output_prefix : list N) (e : exn) : M unit :=
  fun s =>
    let s' :=
      if with_log then
        snd (put_object
               (failure_request a output_bucket output_prefix e
                                (total s) (fieldnames s)) s)
      else s in
    (inl e, s').

(** [try: ... except Exception: ... raise  finally: job.commit()] *)
Definition try_except_finally (a : args_ns) (with_header with_log : bool)
    (output_bucket output_prefix : list N) (src : csv_source) : M unit :=
  fun s =>
    let '(res, s1) :=
      match try_block a with_header with_log output_bucket output_prefix src s with
      | (inr tt, s1) => (inr tt, s1)
      | (inl e, s1) => except_block a with_log output_bucket output_prefix e s1
      end in
    (res, set_committed s1).

(** [main], from the resolved [args_ns] on.  The calls between the parsing
    of the locators and the [try] statement (the Spark and Glue session, the
    [Job] object, the S3 client) are taken to return; [job.init] guards
    its own exception.  The two locators are parsed
    before the [try] statement, so a bad locator ends the run with nothing
    written and nothing committed. *)
Definition main (a : args_ns) (src : csv_source) : (exn + unit) * locals :=
  let with_header := str2bool (include_header a) in
  let with_log := str2bool (write_run_log a) in
  match parse_s3_uri (input_s3_uri a) with
  | None => (inl InvalidUri, initial)
  | Some (input_bucket, input_key) =>
      match parse_s3_uri (output_s3_uri a) with
      | None => (inl InvalidUri, initial)
      | Some (output_bucket, output_prefix) =>
          let output_prefix := normalize_prefix output_prefix in
          try_except_finally a with_header with_log
                             output_bucket output_prefix src initial
      end
  end.

(** The per-row write requests among the requests that succeeded, in the
    order they were made. *)
Definition is_row_object (req : put_request) : bool :=
  match ContentType req with
  | TextCsv => true
  | _ => false
  end.

Definition is_manifest (req : put_request) : bool :=
  match Body req with
  | ManifestJson _ => true
  | _ => false
  end.

Definition row_objects (s : locals) : list put_request :=
  filter (fun req => is_row_object req = true) (s3_objects s).

Definition manifests (s : locals) : list manifest_doc :=
  omap (fun req => match Body req with ManifestJson m => Some m | _ => None end)
       (s3_objects s).

Definition failure_reports (s : locals) : list failure_doc :=
  omap (fun req => match Body req with FailedJson d => Some d | _ => None end)
       (s3_objects s).

Definition summaries (s : locals) : list summary_doc :=
  omap (fun req => match Body req with SummaryJson d => Some d | _ => None end)
       (s3_objects s).

End WithExternal.

(** ** Notions used by the statements *)

(** A name the sanitizer leaves alone: non-empty, made of characters of the
    class, neither starting nor ending with one of ["._-"]. *)
Definition clean_name (y : list N) : Prop :=
  y ≠ []
  ∧ Forall (fun c => allowed c = true) y
  ∧ (∀ c, head y = Some c → is_trim c = false)
  ∧ (∀ c, last y = Some c → is_trim c = false).

(** The rows the loop can reach: those the reader yields before it first
    raises. *)
Fixpoint rows_before_error (items : list (option row)) : list row :=
  match items with
  | Some r :: rest => r :: rows_before_error rest
  | _ => []
  end.

(** The base names of a sequence of rows, the first row having index 1. *)
Definition bases (id_col : list N) (rows : list row) : list (list N) :=
  imap (fun i r => base_name id_col (S i) r) rows.

(** The naming rule in the words of the specification: a name that did not
    occur among the earlier base names is used as it is, and its [n]-th
    later occurrence gets the suffix [-n]. *)
Definition occurrences (b : list N) (bs : list (list N)) : nat :=
  length (filter (fun b' => b' = b) bs).

Definition spec_final_name (bs : list (list N)) (i : nat) : list N :=
  match bs !! i with
  | Some b =>
      match occurrences b (take i bs) with
      | O => b
      | S n => b ++ str "-" ++ str_of_nat (S n)
      end
  | None => []
  end.

(** The field names the loop works with. *)
Definition header_fields (src : csv_source) : list (list N) :=
  match src_header src with
  | Fieldnames (Some f) => f
  | _ => []
  end.

(** What the loop has established after the rows [done], and what is left
    of it when a turn or the reader raises. *)
Section LoopFacts.
Context {ext : External}.
Context (a : args_ns) (with_header : bool).
Context (output_bucket output_prefix : list N) (fields : list (list N)).

(** The locals after the two bookkeeping updates that open a turn. *)
Definition counted (idx : nat) (r : row) (s : locals) : locals :=
  let base := base_name (id_column a) idx r in
  set_name_counts
    (<[base := (default 0 (name_counts s !! base) + 1)%nat]> (name_counts s))
    (set_total (total s + 1)%nat s).

(** The key a turn writes to. *)
Definition turn_key (idx : nat) (r : row) (s : locals) : list N :=
  let base := base_name (id_column a) idx r in
  out_key output_prefix
          (final_name base (default 0%nat (name_counts s !! base))).

(** The key the naming rule gives to the [i]-th of [rows] (from 0). *)
Definition expected_key (rows : list row) (i : nat) : list N :=
  out_key output_prefix (spec_final_name (bases (id_column a) rows) i).

Definition expected_keys (rows : list row) : list (list N) :=
  imap (fun i _ => expected_key rows i) rows.

Definition expected_files (rows : list row) : list file_record :=
  imap (fun i r =>
          file_entry output_bucket (expected_key rows i) (S i)
                     (raw_name (id_column a) (S i) r))
       rows.

(** The request [p] is the per-row object of the row [r]. *)
Definition written_for (r : row) (p : put_request) : Prop :=
  Bucket p = output_bucket ∧ ContentType p = TextCsv
  ∧ ∃ text data,
      row_text a with_header fields r = Some text
      ∧ encode (encoding a) text = Some data
      ∧ Body p = RowData data.

Definition loop_inv (done : list row) (s : locals) : Prop :=
  total s = length done
  ∧ (∀ b, default 0%nat (name_counts s !! b)
          = occurrences b (bases (id_column a) done))
  ∧ Key <$> s3_objects s = expected_keys done
  ∧ Forall2 written_for done (s3_objects s)
  ∧ manifest s = expected_files done
  ∧ fieldnames s = Some fields.

(** [item] is where the loop stopped: the row whose turn raised, or [None]
    when the reader raised. *)
Definition loop_raised (done : list row) (item : option row) (e : exn)
    (s : locals) : Prop :=
  Key <$> s3_objects s = expected_keys done
  ∧ Forall2 written_for done (s3_objects s)
  ∧ manifest s = expected_files done
  ∧ fieldnames s = Some fields
  ∧ match item with
    | None => e = RowReadFailed ∧ total s = length done
    | Some _ =>
        e ∈ [WriteRowFailed; EncodeFailed; PutFailed]
        ∧ total s = S (length done)
    end.

(** [objs] are the per-row objects of [rows], in order. *)
Definition row_outputs (rows : list row) (objs : list put_request) : Prop :=
  Key <$> objs = expected_keys rows ∧ Forall2 written_for rows objs.

End LoopFacts.

(** The ways the [try] block can end, with the locals it leaves. *)
Section Outcomes.
Context {ext : External}.
Context (a : args_ns) (with_header with_log : bool).
Context (output_bucket output_prefix : list N) (src : csv_source).

Inductive ended : exn + unit → locals → Prop :=
  | ended_ok fields rows objs s :
      src_header src = Fieldnames (Some fields) → fields ≠ [] →
      src_rows src = Some <$> rows →
      row_outputs a with_header output_bucket output_prefix fields rows objs →
      total s = length rows →
      manifest s = expected_files a output_bucket output_prefix rows →
      fieldnames s = Some fields →
      s3_objects s =
        objs ++
        manifest_request a output_bucket output_prefix
          (expected_files a output_bucket output_prefix rows) (length rows)
        :: (if with_log
            then [summary_request a output_bucket output_prefix
                    (length rows) (Some fields)]
            else []) →
      ended (inr tt) s
  | ended_unreadable s :
      src_header src = HeaderRaises →
      total s = 0%nat → manifest s = [] → fieldnames s = None →
      s3_objects s = [] →
      ended (inl ReadFailed) s
  | ended_no_header f s :
      src_header src = Fieldnames f → f = None ∨ f = Some [] →
      total s = 0%nat → manifest s = [] → fieldnames s = f →
      s3_objects s = [] →
      ended (inl NoHeader) s
  | ended_in_loop fields rows item rest objs e s :
      src_header src = Fieldnames (Some fields) → fields ≠ [] →
      src_rows src = (Some <$> rows) ++ item :: rest →
      row_outputs a with_header output_bucket output_prefix fields rows objs →
      manifest s = expected_files a output_bucket output_prefix rows →
      fieldnames s = Some fields →
      match item with
      | None => e = RowReadFailed ∧ total s = length rows
      | Some _ =>
          e ∈ [WriteRowFailed; EncodeFailed; PutFailed]
          ∧ total s = S (length rows)
      end →
      s3_objects s = objs →
      ended (inl e) s
  | ended_at_manifest fields rows objs s :
      src_header src = Fieldnames (Some fields) → fields ≠ [] →
      src_rows src = Some <$> rows →
      row_outputs a with_header output_bucket output_prefix fields rows objs →
      total s = length rows →
      manifest s = expected_files a output_bucket output_prefix rows →
      fieldnames s = Some fields →
      s3_objects s = objs →
      ended (inl PutFailed) s
  | ended_at_summary fields rows objs s :
      with_log = true →
      src_header src = Fieldnames (Some fields) → fields ≠ [] →
      src_rows src = Some <$> rows →
      row_outputs a with_header output_bucket output_prefix fields rows objs →
      total s = length rows →
      manifest s = expected_files a output_bucket output_prefix rows →
      fieldnames s = Some fields →
      s3_objects s =
        objs ++
        [manifest_request a output_bucket output_prefix
           (expected_files a output_bucket output_prefix rows) (length rows)] →
      ended (inl PutFailed) s.

End Outcomes.

(** ** Stand-ins for the collaborators, for running the model *)

(** A writer that joins the fields with the delimiter and quotes nothing, an
    encoder for ASCII text, and a store whose [put_object] raises on the
    calls listed in [bad_calls]. *)
Fixpoint join (sep : list N) (fields : list (list N)) : list N :=
  match fields with
  | [] => []
  | [x] => x
  | x :: rest => x ++ sep ++ join sep rest
  end.

Definition encode_ascii (text : list N) : option (list Byte.byte) :=
  if forallb (fun c => c <? 128) text
  then Some ((fun c => default Byte.x00 (Byte.of_N c)) <$> text)
  else None.

Definition store_failing (bad_calls : list nat) : External := {|
  lower_other := fun _ c _ => [c];
  csv_record := fun delim _ fields => join delim fields;
  encode := fun _ text => encode_ascii text;
  put_fails := fun n _ => bool_decide (n ∈ bad_calls);
|}.

(** A one-column input whose rows carry the given identifiers. *)
Definition id_row (v : list N) : row :=
  {| cells := {[ str "source_identifier" := Some v ]}; restkey := None |}.

Definition id_source (ids : list (list N)) : csv_source :=
  {| src_header := Fieldnames (Some [str "source_identifier"]);
     src_rows := (fun v => Some (id_row v)) <$> ids |}.

Definition demo_args (header_flag log_flag : list N) : args_ns := {|
  job_name := str "job";
  input_s3_uri := str "s3://in/data.csv";
  output_s3_uri := str "s3://out/rows";
  id_column := str "source_identifier";
  delimiter := str ",";
  quotechar := [34];
  include_header := header_flag;
  encoding := str "utf-8";
  log_level := str "INFO";
  write_run_log := log_flag;
|}.

(** * Properties *)

(** The run of the script on a one-column input with the given
    identifiers, against a store that fails on the calls [bad_calls], with
    the text [header_flag] for [include_header] and reporting on. *)
Definition demo_run (bad_calls : list nat) (header_flag : list N)
    (ids : list (list N)) : (exn + unit) * locals :=
  @main (store_failing bad_calls) (demo_args header_flag (str "true"))
        (id_source ids).

(** An input object with no record at all, and job parameters that
    supply [include_header] but not [write_run_log]. *)
Definition empty_source : csv_source :=
  {| src_header := Fieldnames None; src_rows := [] |}.

Definition demo_params : gmap (list N) (list N) :=
  {[ str "input_s3_uri" := str "s3://in/data.csv";
     str "output_s3_uri" := str "s3://out/rows";
     str "include_header" := str "on" ]}.

(** A one-column input whose only row has a surplus field, and one on
    which the reader raises after the first row. *)
Definition surplus_row : row :=
  {| cells := {[ str "source_identifier" := Some (str "a") ]};
     restkey := Some [str "x"] |}.

Definition surplus_source : csv_source :=
  {| src_header := Fieldnames (Some [str "source_identifier"]);
     src_rows := [Some surplus_row] |}.

Definition broken_source : csv_source :=
  {| src_header := Fieldnames (Some [str "source_identifier"]);
     src_rows := [Some (id_row (str "a")); None] |}.

(** The runs used below as instances: a good run on two rows, a run whose
    second write fails, and runs on the two inputs above. *)
Definition good_run : (exn + unit) * locals :=
  demo_run [] (str "true") [str "a"; str "b"].

Definition failed_run : (exn + unit) * locals :=
  demo_run [1%nat] (str "true") [str "a"; str "b"; str "c"].

Definition twin_run : (exn + unit) * locals :=
  demo_run [] (str "false") [str "a"; str "a"].

Definition surplus_run : (exn + unit) * locals :=
  @main (store_failing []) (demo_args (str "true") (str "true"))
        surplus_source.

Definition broken_run : (exn + unit) * locals :=
  @main (store_failing []) (demo_args (str "true") (str "true"))
        broken_source.

(** The [i]-th per-row object of a run (an empty request if there is
    none). *)
Definition nth_object (run : (exn + unit) * locals) (i : nat) : put_request :=
  default (row_request [] [] []) (row_objects (snd run) !! i).

(** ** The store as a map, and lines of text *)

(** [put_object] replaces what the store holds at the bucket and key of
    the request, so the objects a run leaves behind are, for each location,
    the last request made to it. *)
Definition location (p : put_request) : list N * list N :=
  (Bucket p, Key p).

Definition store_of (log : list put_request)
  : gmap (list N * list N) put_request :=
  foldl (fun m p => <[location p := p]> m) ∅ log.

Definition stored (s : locals) : gmap (list N * list N) put_request :=
  store_of (s3_objects s).

(** The per-row objects the store holds after a run. *)
Definition stored_rows (s : locals) : gmap (list N * list N) put_request :=
  filter (fun kv => is_row_object kv.2 = true) (stored s).








(** The run on the identifiers [a], [a], [a-1]. *)
Definition clash_run : (exn + unit) * locals :=
  demo_run [] (str "true") [str "a"; str "a"; str "a-1"].

(** Character literals as code points, and boolean tests as
    propositions. *)
Ltac char_codes :=
  change (chr ".") with 46 in *; change (chr "_") with 95 in *;
  change (chr "-") with 45 in *; change (chr "/") with 47 in *.

Ltac bool_split :=
  match goal with
  | H : (_ || _) = true |- _ => apply orb_true_iff in H as [H|H]
  | H : (_ && _) = true |- _ => apply andb_true_iff in H as [? H]
  | H : (_ <=? _) = true |- _ => apply N.leb_le in H
  | H : (_ =? _) = true |- _ => apply N.eqb_eq in H
  | H : (_ <? _) = true |- _ => apply N.ltb_lt in H
  end.

(** ** Strings *)

Lemma startswith_app p t : startswith p (p ++ t) = true.
Proof.
  induction p as [|a p IH]; simpl; [done|].
  by rewrite N.eqb_refl, IH.
Qed.

Lemma startswith_inv p s : startswith p s = true → ∃ t, s = p ++ t.
Proof.
  revert s. induction p as [|a p IH]; intros s H.
  - by exists s.
  - destruct s as [|b s]; simpl in H; [done|].
    apply andb_true_iff in H as [Hab Hp].
    apply N.eqb_eq in Hab as ->.
    destruct (IH _ Hp) as [t ->]. by exists t.
Qed.

Lemma find_sep_unfold sep s :
  find_sep sep s =
    if startswith sep s then Some ([], drop (length sep) s)
    else match s with
         | [] => None
         | c :: s' =>
             match find_sep sep s' with
             | Some (before, after) => Some (c :: before, after)
             | None => None
             end
         end.
Proof. by destruct s. Qed.

Lemma find_sep_prefixed sep t : find_sep sep (sep ++ t) = Some ([], t).
Proof.
  rewrite find_sep_unfold, startswith_app. by rewrite drop_app_length.
Qed.

(** Searching for a one-character separator splits at its first
    occurrence. *)
Lemma find_char_Some c s before after :
  find_sep [c] s = Some (before, after) →
  s = before ++ c :: after ∧ c ∉ before.
Proof.
  revert before after. induction s as [|x s IH]; intros before after.
  - by rewrite find_sep_unfold.
  - rewrite find_sep_unfold. simpl startswith.
    destruct (N.eqb_spec c x) as [->|Hne]; simpl.
    + intros [= <- <-]. split; [done|]. apply not_elem_of_nil.
    + destruct (find_sep [c] s) as [[b k]|] eqn:E; [|done].
      intros [= <- <-]. destruct (IH _ _ eq_refl) as [-> Hb].
      split; [done|]. apply not_elem_of_cons. by split.
Qed.

Lemma find_char_None c s : find_sep [c] s = None → c ∉ s.
Proof.
  induction s as [|x s IH].
  - intros _. apply not_elem_of_nil.
  - rewrite find_sep_unfold. simpl startswith.
    destruct (N.eqb_spec c x) as [->|Hne]; simpl; [done|].
    destruct (find_sep [c] s) as [[b k]|] eqn:E; [done|].
    intros _. apply not_elem_of_cons. split; [done|by apply IH].
Qed.

Lemma lstrip_suffix f s : ∃ pre, s = pre ++ lstrip f s.
Proof.
  induction s as [|c s [pre IH]]; simpl.
  - by exists [].
  - destruct (f c).
    + exists (c :: pre). simpl. by f_equal.
    + by exists [].
Qed.

Lemma lstrip_head f s c : head (lstrip f s) = Some c → f c = false.
Proof.
  induction s as [|x s IH]; simpl; [done|].
  destruct (f x) eqn:E; [done|]. simpl. by intros [= <-].
Qed.

Lemma lstrip_id f s :
  (∀ c, head s = Some c → f c = false) → lstrip f s = s.
Proof.
  destruct s as [|x s]; simpl; [done|].
  intros H. by rewrite (H x eq_refl).
Qed.

Lemma rstrip_prefix f s : ∃ post, s = rstrip f s ++ post.
Proof.
  unfold rstrip. destruct (lstrip_suffix f (reverse s)) as [pre E].
  exists (reverse pre).
  rewrite <- reverse_app, <- E. by rewrite reverse_involutive.
Qed.

Lemma rstrip_last f s c : last (rstrip f s) = Some c → f c = false.
Proof. unfold rstrip. rewrite last_reverse. apply lstrip_head. Qed.

Lemma rstrip_id f s :
  (∀ c, last s = Some c → f c = false) → rstrip f s = s.
Proof.
  intros H. unfold rstrip. rewrite lstrip_id.
  - apply reverse_involutive.
  - intros c. rewrite head_reverse. apply H.
Qed.

Lemma strip_head f s c : head (strip f s) = Some c → f c = false.
Proof.
  unfold strip. intros H.
  destruct (rstrip_prefix f (lstrip f s)) as [post E].
  apply (lstrip_head f s). rewrite E.
  destruct (rstrip f (lstrip f s)); [done|]. exact H.
Qed.

Lemma strip_last f s c : last (strip f s) = Some c → f c = false.
Proof. apply rstrip_last. Qed.

Lemma strip_id f s :
  (∀ c, head s = Some c → f c = false) →
  (∀ c, last s = Some c → f c = false) →
  strip f s = s.
Proof.
  intros Hh Hl. unfold strip. rewrite (lstrip_id f s Hh). by apply rstrip_id.
Qed.

Lemma strip_Forall (P : N → Prop) f s : Forall P s → Forall P (strip f s).
Proof.
  intros H. unfold strip.
  destruct (lstrip_suffix f s) as [pre E].
  destruct (rstrip_prefix f (lstrip f s)) as [post E'].
  rewrite E, E' in H.
  apply Forall_app in H as [_ H]. by apply Forall_app in H as [H _].
Qed.

(** ** Name sanitizer *)

Lemma allowed_underscore : allowed (chr "_") = true.
Proof. reflexivity. Qed.

Lemma allowed_not_space c : allowed c = true → isspace c = false.
Proof.
  intros H. destruct (isspace c) eqn:E; [exfalso|done].
  unfold allowed, isspace in *. char_codes.
  repeat bool_split; lia.
Qed.

Lemma sub_runs_allowed in_run s :
  Forall (fun c => allowed c = true) (sub_runs in_run s).
Proof.
  revert in_run. induction s as [|c s IH]; intros in_run; simpl; [done|].
  destruct (allowed c) eqn:E.
  - by constructor.
  - destruct in_run; [done|]. constructor; [apply allowed_underscore|done].
Qed.

Lemma sub_runs_id in_run s :
  Forall (fun c => allowed c = true) s → sub_runs in_run s = s.
Proof.
  intros H. revert in_run.
  induction H as [|c s Hc _ IH]; intros in_run; simpl; [done|].
  by rewrite Hc, IH.
Qed.

Lemma unnamed_clean : clean_name (str "unnamed").
Proof.
  repeat split; try done.
  - repeat constructor.
  - by intros c [= <-].
  - by intros c [= <-].
Qed.

Lemma safe_filename_clean x : clean_name (safe_filename x).
Proof.
  unfold safe_filename.
  set (cleaned := strip is_trim (re_sub_disallowed (strip isspace x))).
  assert (Hall : Forall (fun c => allowed c = true) cleaned)
    by apply strip_Forall, sub_runs_allowed.
  assert (Hh : ∀ c, head cleaned = Some c → is_trim c = false)
    by apply strip_head.
  assert (Hl : ∀ c, last cleaned = Some c → is_trim c = false)
    by apply strip_last.
  destruct cleaned as [|c t] eqn:E; [apply unnamed_clean|].
  by repeat split.
Qed.

Lemma safe_filename_fixed y : clean_name y → safe_filename y = y.
Proof.
  intros (Hne & Hall & Hh & Hl). unfold safe_filename.
  rewrite Forall_forall in Hall.
  assert (strip isspace y = y) as ->.
  { apply strip_id; intros c Hc; apply allowed_not_space, Hall.
    - by apply head_Some_elem_of.
    - by apply last_Some_elem_of. }
  unfold re_sub_disallowed. rewrite sub_runs_id by by apply Forall_forall.
  rewrite strip_id by done. by destruct y.
Qed.

(** C8. Sanitization is idempotent: sanitizing an already sanitized name
    gives it back, for every string. *)
Theorem safe_filename_idempotent (x : list N) :
  safe_filename (safe_filename x) = safe_filename x.
Proof. apply safe_filename_fixed, safe_filename_clean. Qed.

(** [safe_filename] never returns the empty string, so the [or] that
    follows it in [main] never takes its right-hand side. *)
Lemma safe_filename_nonempty x : safe_filename x ≠ [].
Proof. apply safe_filename_clean. Qed.

Lemma base_name_sanitized id_col idx r :
  base_name id_col idx r = safe_filename (raw_name id_col idx r).
Proof.
  unfold base_name.
  pose proof (safe_filename_nonempty (raw_name id_col idx r)) as H.
  by destruct (safe_filename _).
Qed.

(** The raw name is the identifier value when the row has a non-empty one,
    and the positional fallback otherwise. *)
Lemma raw_name_value id_col idx r c v :
  cells r !! id_col = Some (Some (c :: v)) → raw_name id_col idx r = c :: v.
Proof. unfold raw_name, row_get. by intros ->. Qed.

Lemma raw_name_fallback id_col idx r :
  cells r !! id_col = None ∨ cells r !! id_col = Some None
    ∨ cells r !! id_col = Some (Some []) →
  raw_name id_col idx r = str "row-" ++ str_of_nat idx.
Proof. unfold raw_name, row_get. by intros [->|[->| ->]]. Qed.

(** C5. A row whose identifier is made of punctuation only: the raw name is
    the identifier, its sanitization is the token [unnamed], and the base
    name stays [unnamed] instead of becoming [row-1]. *)
Theorem base_name_of_punctuation :
  raw_name (str "source_identifier") 1 (id_row (str "!!!")) = str "!!!"
  ∧ safe_filename (str "!!!") = str "unnamed"
  ∧ base_name (str "source_identifier") 1 (id_row (str "!!!")) = str "unnamed"
  ∧ base_name (str "source_identifier") 1 (id_row (str "!!!")) ≠ row_fallback 1.
Proof. by vm_compute. Qed.

(** ** URI parser *)

Lemma parse_s3_uri_prefixed rest :
  parse_s3_uri (str "s3://" ++ rest) =
    match find_sep [chr "/"] rest with
    | Some (bucket, key) => Some (bucket, key)
    | None => Some (rest, [])
    end.
Proof.
  unfold parse_s3_uri, py_partition, split1.
  rewrite startswith_app, find_sep_prefixed. simpl negb. cbv iota.
  change (str "/") with [chr "/"].
  by destruct (find_sep [chr "/"] rest) as [[b k]|].
Qed.

(** C9, as the code has it. An accepted locator is the scheme prefix followed
    by some text; the bucket is that text up to its first slash and holds no
    slash; it is non-empty exactly when the text is non-empty and does not
    start with a slash. *)
Theorem parse_s3_uri_bucket (uri bucket key : list N) :
  parse_s3_uri uri = Some (bucket, key) →
  ∃ rest,
    uri = str "s3://" ++ rest
    ∧ (chr "/" ∉ bucket)
    ∧ (rest = bucket ∧ key = [] ∨ rest = bucket ++ chr "/" :: key)
    ∧ (bucket ≠ [] ↔ ∃ c t, rest = c :: t ∧ c ≠ chr "/").
Proof.
  intros H.
  destruct (startswith (str "s3://") uri) eqn:Hs.
  2:{ unfold parse_s3_uri in H. by rewrite Hs in H. }
  apply startswith_inv in Hs as [rest ->]. exists rest.
  rewrite parse_s3_uri_prefixed in H.
  destruct (find_sep [chr "/"] rest) as [[b k]|] eqn:E.
  - injection H as -> ->.
    apply find_char_Some in E as [-> Hb].
    repeat split; [done|by right| |].
    + intros Hne. destruct bucket as [|c t]; [done|].
      exists c, (t ++ chr "/" :: key). split; [done|].
      intros ->. apply Hb. by left.
    + intros (c & t & Ht & Hc) ->. simpl in Ht. by injection Ht as <- _.
  - injection H as <- <-.
    apply find_char_None in E.
    repeat split; [done|by left| |].
    + intros Hne. destruct rest as [|c t]; [done|].
      exists c, t. split; [done|]. intros ->. apply E. by left.
    + by intros (c & t & -> & _).
Qed.

(** C9, as stated, fails: the locator that is just the scheme prefix is
    accepted and its bucket is empty. *)
Lemma parse_s3_uri_empty_bucket :
  ¬ (∀ uri bucket key : list N,
       parse_s3_uri uri = Some (bucket, key) → bucket ≠ []).
Proof. intros H. by apply (H (str "s3://") [] []). Qed.

(** ** Flags *)

Section Flags.
Context {ext : External}.

Lemma lower_ascii_from before s :
  Forall (fun c => c < 128) s → lower_from before s = ascii_lower <$> s.
Proof.
  intros H. revert before.
  induction H as [|c s Hc _ IH]; intros before; simpl; [done|].
  apply N.ltb_lt in Hc. by rewrite Hc, IH.
Qed.

Lemma str2bool_true value :
  str2bool value = true ↔ lower value ∈ truthy_words.
Proof. unfold str2bool. apply bool_decide_eq_true. Qed.

Lemma str2bool_examples :
  str2bool (str "on") = false ∧ str2bool (str "enabled") = false
  ∧ str2bool (str "ture") = false ∧ str2bool (str "") = false
  ∧ str2bool (str "TRUE") = true ∧ str2bool (str "Yes") = true
  ∧ str2bool (str "1") = true.
Proof. by vm_compute. Qed.

(** C10. A flag is on exactly when the lowercased text supplied for it is one
    of the five words; any other supplied text turns it off, and only an
    option that was not supplied gets the default, which is on. *)
Theorem flags_from_text (environ params : gmap (list N) (list N))
    (a : args_ns) :
  args_from_params environ params = Some a →
  (∀ v, params !! str "include_header" = Some v →
        (str2bool (include_header a) = true ↔
           lower v ∈ [str "1"; str "true"; str "t"; str "yes"; str "y"])
        ∧ (str2bool (include_header a) = false ↔
           lower v ∉ [str "1"; str "true"; str "t"; str "yes"; str "y"]))
  ∧ (params !! str "include_header" = None →
        str2bool (include_header a) = true)
  ∧ (∀ v, params !! str "write_run_log" = Some v →
        (str2bool (write_run_log a) = true ↔
           lower v ∈ [str "1"; str "true"; str "t"; str "yes"; str "y"])
        ∧ (str2bool (write_run_log a) = false ↔
           lower v ∉ [str "1"; str "true"; str "t"; str "yes"; str "y"]))
  ∧ (params !! str "write_run_log" = None →
        str2bool (write_run_log a) = true)
  ∧ str2bool (str "on") = false
  ∧ str2bool (str "enabled") = false
  ∧ str2bool (str "ture") = false.
Proof.
  unfold args_from_params.
  destruct (params !! str "input_s3_uri") as [i|]; [|done].
  destruct (params !! str "output_s3_uri") as [o|]; [|done].
  intros [= <-]. simpl.
  assert (Hoff : ∀ v, str2bool v = false ↔ lower v ∉ truthy_words).
  { intros v. unfold str2bool. apply bool_decide_eq_false. }
  destruct str2bool_examples as (Hon & Henabled & Hture & _).
  split_and!; [| | | |exact Hon|exact Henabled|exact Hture].
  - intros v ->. split; [apply str2bool_true|apply Hoff].
  - by intros ->.
  - intros v ->. split; [apply str2bool_true|apply Hoff].
  - by intros ->.
Qed.

End Flags.

(** ** The loop *)

Section Loop.
Context {ext : External}.
Context (a : args_ns) (with_header : bool).
Context (output_bucket output_prefix : list N) (fields : list (list N)).

Local Abbreviation step :=
  (process_row a with_header output_bucket output_prefix fields).
Local Abbreviation loop :=
  (for_rows a with_header output_bucket output_prefix fields).
Local Abbreviation counted' := (counted a).
Local Abbreviation turn_key' := (turn_key a output_prefix).

(** A turn, case by case. *)
Lemma process_row_eq idx r s :
  step idx r s =
    match row_text a with_header fields r with
    | None => (inl WriteRowFailed, counted' idx r s)
    | Some text =>
        match encode (encoding a) text with
        | None => (inl EncodeFailed, counted' idx r s)
        | Some data =>
            let req := row_request output_bucket (turn_key' idx r s) data in
            if put_fails (s3_calls s) req
            then (inl PutFailed,
                  set_s3 (s3_objects s) (S (s3_calls s)) (counted' idx r s))
            else (inr tt,
                  set_manifest
                    (manifest s ++
                       [file_entry output_bucket (turn_key' idx r s) idx
                                   (raw_name (id_column a) idx r)])
                    (set_s3 (s3_objects s ++ [req]) (S (s3_calls s))
                            (counted' idx r s)))
        end
    end.
Proof.
  unfold process_row, bind, gets, modify, ret, raise, put_object,
    counted, turn_key.
  simpl.
  destruct (row_text a with_header fields r) as [text|]; [|done].
  destruct (encode (encoding a) text) as [data|]; [|done].
  simpl. by destruct (put_fails _ _).
Qed.

(** The rule of the loop: an invariant [I] of the completed rows that every
    successful turn extends, and a condition [Q] that holds wherever a turn
    or the reader raises. *)
Lemma for_rows_rule (I : list row → locals → Prop)
    (Q : list row → option row → exn → locals → Prop) :
  (∀ done r s, I done s →
     match step (S (length done)) r s with
     | (inr _, s') => I (done ++ [r]) s'
     | (inl e, s') => Q done (Some r) e s'
     end) →
  (∀ done s, I done s → Q done None RowReadFailed s) →
  ∀ items done s, I done s →
    match loop (S (length done)) items s with
    | (inr _, s') => ∃ rows, items = Some <$> rows ∧ I (done ++ rows) s'
    | (inl e, s') =>
        ∃ rows item rest,
          items = (Some <$> rows) ++ item :: rest
          ∧ Q (done ++ rows) item e s'
    end.
Proof.
  intros Hstep Hread items.
  induction items as [|[r|] items IH]; intros done s HI; simpl.
  - exists []. by rewrite app_nil_r.
  - unfold bind. specialize (Hstep done r s HI).
    destruct (step (S (length done)) r s) as [[e|[]] s1].
    + exists [], (Some r), items. by rewrite app_nil_r.
    + specialize (IH (done ++ [r]) s1 Hstep).
      rewrite length_app in IH. simpl in IH.
      rewrite Nat.add_1_r in IH.
      destruct (loop (S (S (length done))) items s1) as [[e|[]] s2].
      * destruct IH as (rows & item & rest & -> & HQ).
        exists (r :: rows), item, rest. by rewrite <- app_assoc in HQ.
      * destruct IH as (rows & -> & HI').
        exists (r :: rows). by rewrite <- app_assoc in HI'.
  - exists [], None, items. rewrite app_nil_r. split; [done|].
    by apply Hread.
Qed.

(** *** The naming rule under the addition of a row *)

Lemma bases_snoc id_col done r :
  bases id_col (done ++ [r])
  = bases id_col done ++ [base_name id_col (S (length done)) r].
Proof.
  unfold bases. rewrite imap_app. simpl. by rewrite Nat.add_0_r.
Qed.

Lemma length_bases id_col rows : length (bases id_col rows) = length rows.
Proof. unfold bases. apply length_imap. Qed.

Lemma occurrences_snoc b bs b' :
  occurrences b (bs ++ [b'])
  = (occurrences b bs + if decide (b' = b) then 1 else 0)%nat.
Proof.
  unfold occurrences. rewrite filter_app, length_app. f_equal.
  rewrite filter_cons, filter_nil. by destruct (decide (b' = b)).
Qed.

Lemma spec_final_name_app_l bs t i :
  (i < length bs)%nat → spec_final_name (bs ++ t) i = spec_final_name bs i.
Proof.
  intros Hi. unfold spec_final_name.
  rewrite lookup_app_l by done. rewrite take_app_le by lia. done.
Qed.

Lemma spec_final_name_snoc bs b :
  spec_final_name (bs ++ [b]) (length bs) = final_name b (occurrences b bs).
Proof.
  unfold spec_final_name, final_name.
  rewrite list_lookup_middle by done. rewrite take_app_length.
  by destruct (occurrences b bs).
Qed.

Lemma expected_key_app_l done t i :
  (i < length done)%nat →
  expected_key a output_prefix (done ++ t) i
  = expected_key a output_prefix done i.
Proof.
  intros Hi. unfold expected_key, bases. rewrite imap_app.
  rewrite spec_final_name_app_l; [done|]. by rewrite length_imap.
Qed.

Lemma expected_key_snoc done r :
  expected_key a output_prefix (done ++ [r]) (length done)
  = out_key output_prefix
      (final_name (base_name (id_column a) (S (length done)) r)
         (occurrences (base_name (id_column a) (S (length done)) r)
                      (bases (id_column a) done))).
Proof.
  unfold expected_key. rewrite bases_snoc.
  pose proof (spec_final_name_snoc (bases (id_column a) done)
                (base_name (id_column a) (S (length done)) r)) as H.
  rewrite length_bases in H. by rewrite H.
Qed.

Lemma expected_keys_snoc done r :
  expected_keys a output_prefix (done ++ [r])
  = expected_keys a output_prefix done
    ++ [expected_key a output_prefix (done ++ [r]) (length done)].
Proof.
  unfold expected_keys at 1. rewrite imap_app. simpl.
  rewrite Nat.add_0_r. f_equal.
  apply imap_ext. intros i x Hx. simpl.
  apply expected_key_app_l. by eapply lookup_lt_Some.
Qed.

Lemma expected_files_snoc done r :
  expected_files a output_bucket output_prefix (done ++ [r])
  = expected_files a output_bucket output_prefix done
    ++ [file_entry output_bucket
          (expected_key a output_prefix (done ++ [r]) (length done))
          (S (length done))
          (raw_name (id_column a) (S (length done)) r)].
Proof.
  unfold expected_files at 1. rewrite imap_app. simpl.
  rewrite Nat.add_0_r. f_equal.
  apply imap_ext. intros i x Hx. simpl.
  rewrite expected_key_app_l; [done|]. by eapply lookup_lt_Some.
Qed.

(** *** The invariant of the loop *)

Local Abbreviation inv :=
  (loop_inv a with_header output_bucket output_prefix fields).
Local Abbreviation raised :=
  (loop_raised a with_header output_bucket output_prefix fields).

Lemma turn_key_expected done r s :
  inv done s →
  turn_key' (S (length done)) r s
  = expected_key a output_prefix (done ++ [r]) (length done).
Proof.
  intros (_ & Hcount & _). unfold turn_key.
  by rewrite expected_key_snoc, Hcount.
Qed.

Lemma process_row_inv done r s :
  inv done s →
  match step (S (length done)) r s with
  | (inr _, s') => inv (done ++ [r]) s'
  | (inl e, s') => raised done (Some r) e s'
  end.
Proof.
  intros HI. pose proof (turn_key_expected done r s HI) as Hkey.
  destruct HI as (Htotal & Hcount & Hkeys & Hobjs & Hfiles & Hfields).
  rewrite process_row_eq.
  destruct (row_text a with_header fields r) as [text|] eqn:Htext.
  2:{ unfold loop_raised, counted; simpl. split_and!; try done; [|lia].
      set_solver. }
  destruct (encode (encoding a) text) as [data|] eqn:Hdata.
  2:{ unfold loop_raised, counted; simpl. split_and!; try done; [|lia].
      set_solver. }
  simpl. destruct (put_fails _ _).
  { unfold loop_raised, counted; simpl. split_and!; try done; [|lia].
    set_solver. }
  unfold loop_inv, counted; simpl. split_and!.
  - rewrite length_app. simpl. lia.
  - intros b. rewrite bases_snoc, occurrences_snoc.
    destruct (decide (base_name (id_column a) (S (length done)) r = b))
      as [<-|Hne].
    + rewrite lookup_insert_eq. simpl. by rewrite Hcount.
    + rewrite lookup_insert_ne by done. rewrite Hcount. lia.
  - rewrite fmap_app, Hkeys, expected_keys_snoc. simpl. by rewrite Hkey.
  - apply Forall2_app; [done|]. constructor; [|constructor].
    split_and!; [done..|]. by exists text, data.
  - by rewrite Hfiles, expected_files_snoc, Hkey.
  - done.
Qed.

Lemma read_error_raised done s :
  inv done s → raised done None RowReadFailed s.
Proof.
  intros (Htotal & _ & Hkeys & Hobjs & Hfiles & Hfields).
  unfold loop_raised. by split_and!.
Qed.

(** What the loop leaves behind, started on locals that satisfy the
    invariant. *)
Lemma for_rows_spec items done s :
  inv done s →
  match loop (S (length done)) items s with
  | (inr _, s') => ∃ rows, items = Some <$> rows ∧ inv (done ++ rows) s'
  | (inl e, s') =>
      ∃ rows item rest,
        items = (Some <$> rows) ++ item :: rest
        ∧ raised (done ++ rows) item e s'
  end.
Proof.
  apply (for_rows_rule inv raised).
  - apply process_row_inv.
  - apply read_error_raised.
Qed.

Lemma inv_initial : inv [] (set_fieldnames (Some fields) initial).
Proof.
  unfold loop_inv. simpl. by split_and!.
Qed.

End Loop.

(** ** The run *)

Section Main.
Context {ext : External}.
Context (a : args_ns) (with_header with_log : bool).
Context (output_bucket output_prefix : list N) (src : csv_source).

Local Abbreviation ended' :=
  (ended a with_header with_log output_bucket output_prefix src).

Lemma try_block_ended res s :
  try_block a with_header with_log output_bucket output_prefix src initial
    = (res, s) →
  ended' res s.
Proof.
  unfold try_block.
  destruct (src_header src) as [|f] eqn:Hh.
  { intros [= <- <-]. by apply ended_unreadable. }
  unfold bind at 1. unfold modify at 1.
  destruct f as [[|f1 fs]|] eqn:Hf.
  { intros [= <- <-]. eapply ended_no_header; eauto. }
  2:{ intros [= <- <-]. eapply ended_no_header; eauto. }
  unfold bind at 1.
  pose proof (for_rows_spec a with_header output_bucket output_prefix
                (f1 :: fs) (src_rows src) [] _
                (inv_initial a with_header output_bucket output_prefix
                             (f1 :: fs))) as Hloop.
  simpl length in Hloop.
  destruct (for_rows _ _ _ _ _ _ _ _) as [[e|[]] s1].
  - intros [= <- <-].
    destruct Hloop as (rows & item & rest & Hitems & HQ). simpl in HQ.
    destruct HQ as (Hkeys & Hobjs & Hfiles & Hfields & Hitem).
    eapply ended_in_loop; eauto. by split.
  - destruct Hloop as (rows & Hitems & HI). simpl in HI.
    destruct HI as (Htotal & _ & Hkeys & Hobjs & Hfiles & Hfields).
    unfold bind, modify, gets, put_object. simpl.
    rewrite Htotal, Hfiles.
    destruct (put_fails _ _).
    { intros [= <- <-]. eapply ended_at_manifest; eauto. by split. }
    destruct with_log eqn:Hlog.
    + simpl. destruct (put_fails _ _).
      * intros [= <- <-]. eapply ended_at_summary; eauto. by split.
      * intros [= <- <-]. eapply ended_ok; eauto; [by split|].
        simpl. by rewrite <- app_assoc.
    + intros [= <- <-]. eapply ended_ok; eauto. by split.
Qed.

(** The [except] and [finally] clauses keep what the [try] block left and
    add at most the failure report. *)
Lemma try_except_finally_ended res s :
  try_except_finally a with_header with_log output_bucket output_prefix
                     src initial = (res, s) →
  ∃ s1 report,
    ended' res s1
    ∧ total s = total s1 ∧ manifest s = manifest s1
    ∧ fieldnames s = fieldnames s1 ∧ committed s = true
    ∧ s3_objects s = s3_objects s1 ++ report
    ∧ match res with
      | inr _ => report = []
      | inl e =>
          let req := failure_request a output_bucket output_prefix e
                                     (total s1) (fieldnames s1) in
          (report = [] ∨ with_log = true ∧ report = [req])
          ∧ (with_log = true → put_fails (s3_calls s1) req = false →
             report = [req])
      end.
Proof.
  unfold try_except_finally.
  destruct (try_block _ _ _ _ _ _ _) as [[e|[]] s1] eqn:Htry;
    apply try_block_ended in Htry.
  - unfold except_block. destruct with_log eqn:Hlog.
    + unfold put_object. destruct (put_fails _ _) eqn:Hput.
      * intros [= <- <-]. exists s1, []. simpl.
        rewrite app_nil_r. split_and!; try done; [by left|congruence].
      * intros [= <- <-]. exists s1, [failure_request a output_bucket
          output_prefix e (total s1) (fieldnames s1)]. simpl.
        split_and!; try done. by right.
    + intros [= <- <-]. exists s1, []. simpl.
      rewrite app_nil_r. split_and!; try done. by left.
  - intros [= <- <-]. exists s1, []. simpl.
    rewrite app_nil_r. by split_and!.
Qed.

End Main.

Section Whole.
Context {ext : External}.
Context (a : args_ns) (src : csv_source).

(** [main] either stops on a bad locator, with nothing done, or runs the
    [try] statement on the parsed output location. *)
Lemma main_cases res s :
  main a src = (res, s) →
  res = inl InvalidUri ∧ s = initial
  ∨ ∃ output_bucket key,
      parse_s3_uri (output_s3_uri a) = Some (output_bucket, key)
      ∧ try_except_finally a (str2bool (include_header a))
          (str2bool (write_run_log a)) output_bucket (normalize_prefix key)
          src initial = (res, s).
Proof.
  unfold main.
  destruct (parse_s3_uri (input_s3_uri a)) as [[ib ik]|].
  2:{ intros [= <- <-]. by left. }
  destruct (parse_s3_uri (output_s3_uri a)) as [[ob op]|].
  2:{ intros [= <- <-]. by left. }
  intros H. right. by exists ob, op.
Qed.

Local Abbreviation with_header := (str2bool (include_header a)).
Local Abbreviation with_log := (str2bool (write_run_log a)).

Lemma written_for_row_object ob fields r p :
  written_for a with_header ob fields r p → is_row_object p = true.
Proof. intros (_ & Hct & _). unfold is_row_object. by rewrite Hct. Qed.

Lemma written_for_no_manifest ob fields rows objs :
  Forall2 (written_for a with_header ob fields) rows objs →
  omap (fun req => match Body req with ManifestJson m => Some m | _ => None end)
       objs = [].
Proof.
  induction 1 as [|r p rows objs (_ & _ & text & data & _ & _ & Hb) _ IH];
    [done|].
  simpl. by rewrite Hb.
Qed.

Lemma written_for_no_report ob fields rows objs :
  Forall2 (written_for a with_header ob fields) rows objs →
  omap (fun req => match Body req with FailedJson d => Some d | _ => None end)
       objs = [].
Proof.
  induction 1 as [|r p rows objs (_ & _ & text & data & _ & _ & Hb) _ IH];
    [done|].
  simpl. by rewrite Hb.
Qed.

Lemma row_objects_of ob fields rows objs tail s :
  Forall2 (written_for a with_header ob fields) rows objs →
  Forall (fun p => is_row_object p = false) tail →
  s3_objects s = objs ++ tail →
  row_objects s = objs.
Proof.
  intros Hobjs Htail Hs. unfold row_objects. rewrite Hs, filter_app.
  clear Hs.
  assert (filter (fun req => is_row_object req = true) tail = []) as ->.
  { induction Htail as [|p tail Hp _ IH]; [done|].
    rewrite filter_cons. destruct (decide _); [congruence|done]. }
  rewrite app_nil_r.
  induction Hobjs as [|r p rows objs Hp _ IH]; [done|].
  rewrite filter_cons. apply written_for_row_object in Hp.
  destruct (decide _); [by f_equal|done].
Qed.

(** The per-row objects of a run, whatever its outcome: they are the
    objects of the rows read before the run stopped, in order. *)
Lemma main_row_objects res s :
  main a src = (res, s) →
  ∃ output_bucket output_prefix rows rest,
    (∀ ob key, parse_s3_uri (output_s3_uri a) = Some (ob, key) →
       output_bucket = ob ∧ output_prefix = normalize_prefix key)
    ∧ src_rows src = (Some <$> rows) ++ rest
    ∧ (res = inr tt → rest = [])
    ∧ row_outputs a with_header output_bucket output_prefix
                  (header_fields src) rows (row_objects s).
Proof.
  intros Hmain. apply main_cases in Hmain as [[-> ->]|Hrun].
  { destruct (parse_s3_uri (output_s3_uri a)) as [[ob key]|] eqn:Hout.
    - exists ob, (normalize_prefix key), [], (src_rows src).
      split_and!; try done. intros ob' key' [= <- <-]. done.
    - exists [], [], [], (src_rows src). by split_and!. }
  destruct Hrun as (ob & key & Hout & Hrun).
  apply try_except_finally_ended in Hrun
    as (s1 & report & Hend & _ & _ & _ & _ & Hobjs & Hreport).
  assert (Hrep : Forall (fun p => is_row_object p = false) report).
  { destruct res as [e|[]]; [|by subst].
    destruct Hreport as [[->|[_ ->]] _]; [done|]. by repeat constructor. }
  exists ob, (normalize_prefix key).
  assert (Hloc : ∀ ob' key', parse_s3_uri (output_s3_uri a) = Some (ob', key')
                 → ob = ob' ∧ normalize_prefix key = normalize_prefix key').
  { intros ob' key'. rewrite Hout. by intros [= <- <-]. }
  unfold header_fields.
  inversion Hend as
    [ fields rows objs s' Hh Hne Hrows [Hk Hw] Ht Hm Hf Hs
    | s' Hh Ht Hm Hf Hs
    | f s' Hh Hfalsy Ht Hm Hf Hs
    | fields rows item rest objs e s' Hh Hne Hrows [Hk Hw] Hm Hf Hitem Hs
    | fields rows objs s' Hh Hne Hrows [Hk Hw] Ht Hm Hf Hs
    | fields rows objs s' Hlog Hh Hne Hrows [Hk Hw] Ht Hm Hf Hs ];
    subst; rewrite Hh.
  - exists rows, []. rewrite app_nil_r. split_and!; try done.
    rewrite Hs, <- app_assoc in Hobjs.
    assert (row_objects s = objs) as ->; [|done].
    eapply row_objects_of; [exact Hw| |exact Hobjs].
    apply Forall_app. split; [|done].
    destruct (str2bool (write_run_log a)); by repeat constructor.
  - exists [], (src_rows src). split_and!; try done.
    rewrite Hs in Hobjs. simpl in Hobjs.
    assert (row_objects s = []) as ->; [|done].
    eapply (row_objects_of ob [] []); [constructor|exact Hrep|exact Hobjs].
  - exists [], (src_rows src). split_and!; try done.
    rewrite Hs in Hobjs. simpl in Hobjs.
    assert (row_objects s = []) as ->.
    { eapply (row_objects_of ob [] []); [constructor|exact Hrep|exact Hobjs]. }
    by destruct Hfalsy as [-> | ->].
  - exists rows, (item :: rest). split_and!; try done.
    assert (row_objects s = s3_objects s1) as ->; [|done].
    eapply row_objects_of; [exact Hw|exact Hrep|exact Hobjs].
  - exists rows, []. rewrite app_nil_r. split_and!; try done.
    assert (row_objects s = s3_objects s1) as ->; [|done].
    eapply row_objects_of; [exact Hw|exact Hrep|exact Hobjs].
  - exists rows, []. rewrite app_nil_r. split_and!; try done.
    rewrite Hs, <- app_assoc in Hobjs.
    assert (row_objects s = objs) as ->; [|done].
    eapply row_objects_of; [exact Hw| |exact Hobjs].
    apply Forall_app. split; [by repeat constructor|done].
Qed.

Lemma keys_by_index (f : nat → list N) (objs : list put_request) :
  (∀ i p, objs !! i = Some p → Key p = f i) →
  Key <$> objs = f <$> seq 0 (length objs).
Proof.
  intros H. apply list_eq. intros i.
  rewrite !list_lookup_fmap.
  destruct (objs !! i) as [p|] eqn:Hp; simpl.
  - rewrite (H i p Hp), lookup_seq_lt; [done|]. by eapply lookup_lt_Some.
  - rewrite lookup_seq_ge; [done|]. by apply lookup_ge_None.
Qed.

Lemma rows_before_error_app rows rest :
  rows_before_error ((Some <$> rows) ++ rest)
  = rows ++ rows_before_error rest.
Proof. induction rows as [|r rows IH]; csimpl; [done|]. by rewrite IH. Qed.

(** C6. Whatever the outcome of the run, the [i]-th per-row object is
    written under the name the rule of the specification gives to the
    [i]-th row: its base name when no earlier row had that base name, and
    the base name followed by [-n] when [n] earlier rows had it. *)
Theorem collision_names res s output_bucket key i p :
  parse_s3_uri (output_s3_uri a) = Some (output_bucket, key) →
  main a src = (res, s) →
  row_objects s !! i = Some p →
  Key p =
    out_key (normalize_prefix key)
      (spec_final_name
         (bases (id_column a) (rows_before_error (src_rows src))) i).
Proof.
  intros Hout Hmain Hp.
  apply main_row_objects in Hmain
    as (ob & prefix & rows & rest & Hloc & Hrows & _ & Hk & _).
  destruct (Hloc _ _ Hout) as [-> ->].
  assert (Hi : (Key <$> row_objects s) !! i = Some (Key p))
    by by rewrite list_lookup_fmap, Hp.
  rewrite Hk in Hi. unfold expected_keys in Hi.
  rewrite list_lookup_imap in Hi.
  destruct (rows !! i) as [r|] eqn:Hr; [|done].
  injection Hi as <-. rewrite Hrows, rows_before_error_app.
  symmetry. apply expected_key_app_l. by eapply lookup_lt_Some.
Qed.


(** *** The manifest entries *)

Lemma expected_files_index ob prefix rows :
  row_index <$> expected_files a ob prefix rows = seq 1 (length rows).
Proof.
  induction rows as [|r rows IH] using rev_ind; [done|].
  rewrite expected_files_snoc, fmap_app, IH, length_app. simpl.
  by rewrite Nat.add_1_r, seq_S.
Qed.

Lemma expected_files_identifier ob prefix rows :
  source_identifier <$> expected_files a ob prefix rows
  = imap (fun i r => raw_name (id_column a) (S i) r) rows.
Proof.
  induction rows as [|r rows IH] using rev_ind; [done|].
  rewrite expected_files_snoc, fmap_app, IH, imap_app. simpl.
  by rewrite Nat.add_0_r.
Qed.

Lemma expected_files_uri ob prefix rows :
  s3_uri <$> expected_files a ob prefix rows
  = (fun k => str "s3://" ++ ob ++ str "/" ++ k)
      <$> expected_keys a prefix rows.
Proof.
  induction rows as [|r rows IH] using rev_ind; [done|].
  by rewrite expected_files_snoc, expected_keys_snoc, !fmap_app, IH.
Qed.

Lemma length_expected_files ob prefix rows :
  length (expected_files a ob prefix rows) = length rows.
Proof. unfold expected_files. apply length_imap. Qed.

Lemma object_uris ob prefix fields rows objs :
  row_outputs a with_header ob prefix fields rows objs →
  (fun p => str "s3://" ++ Bucket p ++ str "/" ++ Key p) <$> objs
  = (fun k => str "s3://" ++ ob ++ str "/" ++ k)
      <$> expected_keys a prefix rows.
Proof.
  intros [<- Hw]. rewrite <- list_fmap_compose.
  apply list_fmap_ext. intros i p Hp. simpl.
  destruct (Forall2_lookup_r _ _ _ _ _ Hw Hp) as (r & _ & -> & _). done.
Qed.

(** The write requests of a run that succeeds.  It had a header and read
    every row; one per-row request for each of the [k] rows and one manifest
    request succeeded; the manifest's [total_rows] is [k] and its [files]
    are [k] entries in the order of the rows: indices 1 to [k], the raw
    names of the rows, and the locations the per-row requests wrote to. *)
Theorem successful_run_outputs s :
  main a src = (inr tt, s) →
  ∃ fields rows m,
    src_header src = Fieldnames (Some fields) ∧ fields ≠ []
    ∧ src_rows src = Some <$> rows
    ∧ length (row_objects s) = length rows
    ∧ manifests s = [m]
    ∧ m_total_rows m = length rows
    ∧ length (m_files m) = length rows
    ∧ row_index <$> m_files m = seq 1 (length rows)
    ∧ source_identifier <$> m_files m
      = imap (fun i r => raw_name (id_column a) (S i) r) rows
    ∧ s3_uri <$> m_files m
      = (fun p => str "s3://" ++ Bucket p ++ str "/" ++ Key p)
          <$> row_objects s.
Proof.
  intros Hmain. apply main_cases in Hmain as [[[=] _]|Hrun].
  destruct Hrun as (ob & key & Hout & Hrun).
  apply try_except_finally_ended in Hrun
    as (s1 & report & Hend & _ & _ & _ & _ & Hobjs & ->).
  rewrite app_nil_r in Hobjs.
  inversion Hend
    as [ fields rows objs s' Hh Hne Hrows Hout' Ht Hm Hf Hs | | | | | ];
    subst.
  set (prefix := normalize_prefix key) in *.
  set (files := expected_files a ob prefix rows) in *.
  exists fields, rows,
    {| m_input := input_s3_uri a; m_output_prefix := prefix_uri ob prefix;
       m_files := files; m_total_rows := length rows;
       m_id_column := id_column a |}.
  assert (Hrow : row_objects s = objs).
  { destruct Hout' as [_ Hw].
    eapply row_objects_of; [exact Hw| |by rewrite Hobjs, Hs].
    destruct (str2bool (write_run_log a)); by repeat constructor. }
  rewrite Hrow. simpl. split_and!; try done.
  - destruct Hout' as [_ Hw]. symmetry. by eapply Forall2_length.
  - destruct Hout' as [_ Hw]. unfold manifests.
    rewrite Hobjs, Hs, omap_app, (written_for_no_manifest _ _ _ _ Hw).
    simpl. by destruct (str2bool (write_run_log a)).
  - apply length_expected_files.
  - apply expected_files_index.
  - apply expected_files_identifier.
  - unfold files. rewrite expected_files_uri. symmetry.
    by eapply object_uris.
Qed.

(** C4. When no field names are detected the run fails with no row
    processed: the row count is still zero, the manifest list is empty, and
    neither a per-row object nor a manifest has been written. *)
Theorem missing_header_run res s :
  src_header src = Fieldnames None ∨ src_header src = Fieldnames (Some []) →
  main a src = (res, s) →
  (res = inl NoHeader ∨ res = inl InvalidUri)
  ∧ total s = 0%nat ∧ manifest s = []
  ∧ row_objects s = [] ∧ manifests s = [].
Proof.
  intros Hh Hmain. apply main_cases in Hmain as [[-> ->]|Hrun].
  { split_and!; try done. by right. }
  destruct Hrun as (ob & key & Hout & Hrun).
  apply try_except_finally_ended in Hrun
    as (s1 & report & Hend & Ht & Hm & _ & _ & Hobjs & Hreport).
  inversion Hend
    as [ fields rows objs s' Hh' Hne
       | s' Hh'
       | f s' Hh' Hfalsy Ht' Hm' Hf' Hs'
       | fields rows item rest objs e s' Hh' Hne
       | fields rows objs s' Hh' Hne
       | fields rows objs s' Hlog Hh' Hne ];
    subst;
    try (destruct Hh as [Hh|Hh]; rewrite Hh in Hh'; by simplify_eq).
  rewrite Hs' in Hobjs. simpl in Hobjs.
  unfold row_objects, manifests. rewrite Hobjs.
  split_and!; [by left|congruence|congruence| |];
    by destruct Hreport as [[->|[_ ->]] _].
Qed.

(** *** A failing write of a row *)

(** On an input the reader yields in full, a run that ends with the
    exception of [put_object] having written fewer per-row objects than
    there are rows failed on the write of the next row.  No manifest was
    written, and the row count, which every failure report carries as
    [processed_rows], is one more than the number of per-row objects: it
    counts the row whose write failed. *)
Lemma row_put_failure rows s :
  src_rows src = Some <$> rows →
  main a src = (inl PutFailed, s) →
  (length (row_objects s) < length rows)%nat →
  manifests s = []
  ∧ total s = S (length (row_objects s))
  ∧ ∀ d, d ∈ failure_reports s →
         f_processed_rows d = S (length (row_objects s)).
Proof.
  intros Hall Hmain Hlt. apply main_cases in Hmain as [[[=] _]|Hrun].
  destruct Hrun as (ob & key & Hout & Hrun).
  apply try_except_finally_ended in Hrun
    as (s1 & report & Hend & Ht & _ & _ & _ & Hobjs & [Hreport _]).
  assert (Hrep : Forall (fun p => is_row_object p = false) report).
  { destruct Hreport as [->|[_ ->]]; [done|]. by repeat constructor. }
  inversion Hend
    as [ | |
       | fields rows' item rest objs e s' Hh Hne Hrows [Hk Hw] Hm Hf Hitem Hs
       | fields rows' objs s' Hh Hne Hrows [Hk Hw] Ht' Hm Hf Hs
       | fields rows' objs s' Hlog Hh Hne Hrows [Hk Hw] Ht' Hm Hf Hs ];
    subst.
  - assert (Hrow : row_objects s = s3_objects s1)
      by (eapply row_objects_of; [exact Hw|exact Hrep|exact Hobjs]).
    destruct item as [r|]; [|by destruct Hitem].
    destruct Hitem as [_ Ht1].
    rewrite Hrow, <- (Forall2_length _ _ _ Hw), Ht.
    unfold manifests, failure_reports. rewrite Hobjs, !omap_app.
    rewrite (written_for_no_manifest _ _ _ _ Hw).
    rewrite (written_for_no_report _ _ _ _ Hw).
    destruct Hreport as [->|[_ ->]]; simpl; split_and!; try done.
    + by intros d ?%elem_of_nil.
    + by intros d ->%list_elem_of_singleton.
  - exfalso.
    assert (Hrow : row_objects s = s3_objects s1)
      by (eapply row_objects_of; [exact Hw|exact Hrep|exact Hobjs]).
    rewrite Hrow, <- (Forall2_length _ _ _ Hw) in Hlt.
    rewrite Hall in Hrows. apply (f_equal length) in Hrows.
    rewrite !length_fmap in Hrows. lia.
  - exfalso.
    rewrite Hs, <- app_assoc in Hobjs.
    assert (Hrow : row_objects s = objs).
    { eapply row_objects_of; [exact Hw| |exact Hobjs].
      apply Forall_app. split; [by repeat constructor|done]. }
    rewrite Hrow, <- (Forall2_length _ _ _ Hw) in Hlt.
    rewrite Hall in Hrows. apply (f_equal length) in Hrows.
    rewrite !length_fmap in Hrows. lia.
Qed.

End Whole.

(** ** The script on concrete inputs *)

(** C1. Identifiers [a], [a], [a-1]: the run succeeds, the second row is
    renamed to [a-1] by the suffix rule, and the third row, whose own base
    name is [a-1] and has not occurred before, is written to the same key. *)
Theorem suffix_meets_base_name :
  fst (demo_run [] (str "true") [str "a"; str "a"; str "a-1"]) = inr tt
  ∧ Key <$> row_objects
              (snd (demo_run [] (str "true") [str "a"; str "a"; str "a-1"]))
    = [str "rows/a.csv"; str "rows/a-1.csv"; str "rows/a-1.csv"]
  ∧ ¬ NoDup (Key <$> row_objects
               (snd (demo_run [] (str "true") [str "a"; str "a"; str "a-1"]))).
Proof.
  assert (Hkeys :
    Key <$> row_objects
              (snd (demo_run [] (str "true") [str "a"; str "a"; str "a-1"]))
    = [str "rows/a.csv"; str "rows/a-1.csv"; str "rows/a-1.csv"])
    by by vm_compute.
  split_and!; [by vm_compute|done|].
  rewrite Hkeys. intros Hn.
  apply NoDup_cons in Hn as [_ Hn]. apply NoDup_cons in Hn as [Hn _].
  apply Hn. by left.
Qed.

(** C2. Three rows and a store that fails on the second write: one
    per-row object and no manifest are written, and the failure report
    gives [processed_rows] as 2, not 1. *)
Theorem put_failure_on_second_row :
  fst (demo_run [1%nat] (str "true") [str "a"; str "b"; str "c"])
    = inl PutFailed
  ∧ length (row_objects
              (snd (demo_run [1%nat] (str "true") [str "a"; str "b"; str "c"])))
    = 1%nat
  ∧ manifests
      (snd (demo_run [1%nat] (str "true") [str "a"; str "b"; str "c"])) = []
  ∧ f_processed_rows <$>
      failure_reports
        (snd (demo_run [1%nat] (str "true") [str "a"; str "b"; str "c"]))
    = [2%nat].
Proof. by vm_compute. Qed.

(** C3. Identifiers [a], [a], [a-1]: the run succeeds on its three rows, and
    the manifest counts three rows and lists three files, but the store
    holds two per-row objects, because the object of the third row took the
    place of the object of the second. *)
Theorem clash_leaves_two_objects :
  fst clash_run = inr tt
  ∧ length (rows_before_error
              (src_rows (id_source [str "a"; str "a"; str "a-1"]))) = 3%nat
  ∧ length (row_objects (snd clash_run)) = 3%nat
  ∧ size (stored_rows (snd clash_run)) = 2%nat
  ∧ m_total_rows <$> manifests (snd clash_run) = [3%nat]
  ∧ (fun m => length (m_files m)) <$> manifests (snd clash_run) = [3%nat].
Proof. by vm_compute. Qed.


(** ** The theorems at concrete inputs *)

Lemma parse_s3_uri_bucket_witness :
  parse_s3_uri (str "s3://bucket/a/b") = Some (str "bucket", str "a/b")
  ∧ ∃ rest,
      str "s3://bucket/a/b" = str "s3://" ++ rest
      ∧ (chr "/" ∉ str "bucket")
      ∧ (rest = str "bucket" ∧ str "a/b" = []
         ∨ rest = str "bucket" ++ chr "/" :: str "a/b")
      ∧ (str "bucket" ≠ [] ↔ ∃ c t, rest = c :: t ∧ c ≠ chr "/").
Proof.
  split; [reflexivity|].
  apply (parse_s3_uri_bucket (str "s3://bucket/a/b") (str "bucket")
                             (str "a/b")).
  reflexivity.
Defined.

Lemma flags_from_text_witness :
  ∃ a,
    args_from_params ∅ demo_params = Some a
    ∧ @str2bool (store_failing []) (include_header a) = false
    ∧ @str2bool (store_failing []) (write_run_log a) = true.
Proof.
  eexists. split; [reflexivity|].
  destruct (flags_from_text (ext := store_failing []) ∅ demo_params _ eq_refl)
    as (Hheader & _ & _ & Hlog & _).
  split.
  - apply (Hheader (str "on")); [reflexivity|]. vm_compute.
    intros H. repeat (apply elem_of_cons in H as [H|H]; [discriminate|]).
    by apply elem_of_nil in H.
  - apply Hlog. reflexivity.
Defined.

Lemma collision_names_witness :
  Key <$> row_objects
            (snd (demo_run [] (str "true") [str "a"; str "a"; str "a"]))
  = [str "rows/a.csv"; str "rows/a-1.csv"; str "rows/a-2.csv"].
Proof.
  etransitivity.
  - apply (keys_by_index
             (fun i => out_key (normalize_prefix (str "rows"))
                (spec_final_name
                   (bases (str "source_identifier")
                      (rows_before_error
                         (src_rows (id_source [str "a"; str "a"; str "a"]))))
                   i))).
    intros i p.
    apply (collision_names (ext := store_failing [])
             (demo_args (str "true") (str "true"))
             (id_source [str "a"; str "a"; str "a"])
             (fst (demo_run [] (str "true") [str "a"; str "a"; str "a"]))
             (snd (demo_run [] (str "true") [str "a"; str "a"; str "a"]))
             (str "out") (str "rows") i p).
    + reflexivity.
    + by vm_compute.
  - by vm_compute.
Defined.


Lemma successful_run_outputs_witness :
  demo_run [] (str "true") [str "a"; str "b"]
  = (inr tt, snd (demo_run [] (str "true") [str "a"; str "b"]))
  ∧ ∃ fields rows m,
      src_header (id_source [str "a"; str "b"]) = Fieldnames (Some fields)
      ∧ fields ≠ []
      ∧ src_rows (id_source [str "a"; str "b"]) = Some <$> rows
      ∧ length (row_objects (snd (demo_run [] (str "true") [str "a"; str "b"])))
        = length rows
      ∧ manifests (snd (demo_run [] (str "true") [str "a"; str "b"])) = [m]
      ∧ m_total_rows m = length rows
      ∧ length (m_files m) = length rows
      ∧ row_index <$> m_files m = seq 1 (length rows)
      ∧ source_identifier <$> m_files m
        = imap (fun i r => raw_name (str "source_identifier") (S i) r) rows
      ∧ s3_uri <$> m_files m
        = (fun p => str "s3://" ++ Bucket p ++ str "/" ++ Key p)
            <$> row_objects (snd (demo_run [] (str "true") [str "a"; str "b"])).
Proof.
  split; [by vm_compute|].
  apply (successful_run_outputs (ext := store_failing [])
           (demo_args (str "true") (str "true"))
           (id_source [str "a"; str "b"])).
  by vm_compute.
Defined.

Lemma missing_header_run_witness :
  (src_header empty_source = Fieldnames None
   ∨ src_header empty_source = Fieldnames (Some []))
  ∧ (fst (@main (store_failing []) (demo_args (str "true") (str "true"))
                empty_source) = inl NoHeader
     ∨ fst (@main (store_failing []) (demo_args (str "true") (str "true"))
                  empty_source) = inl InvalidUri)
  ∧ total (snd (@main (store_failing [])
                  (demo_args (str "true") (str "true")) empty_source)) = 0%nat
  ∧ manifest (snd (@main (store_failing [])
                     (demo_args (str "true") (str "true")) empty_source)) = []
  ∧ row_objects (snd (@main (store_failing [])
                        (demo_args (str "true") (str "true")) empty_source))
    = []
  ∧ manifests (snd (@main (store_failing [])
                      (demo_args (str "true") (str "true")) empty_source))
    = [].
Proof.
  split; [by left|].
  apply (missing_header_run (ext := store_failing [])
           (demo_args (str "true") (str "true")) empty_source).
  - by left.
  - by vm_compute.
Defined.

(** * Further properties of the script *)

(** ** Locators *)

Lemma endswith_char c s : endswith [c] s = true ↔ last s = Some c.
Proof.
  unfold endswith. rewrite <- head_reverse.
  change (reverse [c]) with [c].
  destruct (reverse s) as [|x t]; simpl; [done|].
  rewrite andb_true_r, N.eqb_eq. split; [by intros ->|by intros [= ->]].
Qed.

Lemma normalize_prefix_cases (prefix : list N) :
  (prefix = [] → normalize_prefix prefix = [])
  ∧ (last prefix = Some (chr "/") → normalize_prefix prefix = prefix)
  ∧ (prefix ≠ [] → last prefix ≠ Some (chr "/") →
     normalize_prefix prefix = prefix ++ [chr "/"])
  ∧ (normalize_prefix prefix = []
     ∨ last (normalize_prefix prefix) = Some (chr "/")).
Proof.
  unfold normalize_prefix. change (str "/") with [chr "/"].
  destruct (endswith [chr "/"] prefix) eqn:E.
  - apply endswith_char in E. rewrite andb_false_r.
    split_and!; try done. by right.
  - assert (Hl : last prefix ≠ Some (chr "/")).
    { intros H. apply endswith_char in H. congruence. }
    rewrite andb_true_r. destruct prefix as [|c t].
    + split_and!; try done. by left.
    + rewrite bool_decide_eq_true_2 by done.
      split_and!; try done. right. apply last_snoc.
Qed.

(** [normalize_prefix] only ever appends: the empty prefix stays empty, a
    prefix that ends with a slash is returned as it is, and any other prefix
    gets exactly one slash; so the result is empty or ends with a slash. *)
Theorem normalize_prefix_shape (prefix : list N) :
  (prefix = [] → normalize_prefix prefix = [])
  ∧ (last prefix = Some (chr "/") → normalize_prefix prefix = prefix)
  ∧ (prefix ≠ [] → last prefix ≠ Some (chr "/") →
     normalize_prefix prefix = prefix ++ [chr "/"])
  ∧ (normalize_prefix prefix = []
     ∨ last (normalize_prefix prefix) = Some (chr "/")).
Proof. apply normalize_prefix_cases. Qed.

(** Normalizing a prefix twice is the same as normalizing it once. *)
Theorem normalize_prefix_idempotent (prefix : list N) :
  normalize_prefix (normalize_prefix prefix) = normalize_prefix prefix.
Proof.
  destruct (normalize_prefix_cases (normalize_prefix prefix))
    as (Hnil & Hkeep & _).
  destruct (normalize_prefix_cases prefix) as (_ & _ & _ & [H|H]).
  - rewrite H. by vm_compute.
  - by apply Hkeep.
Qed.

Lemma find_char_found c before after :
  c ∉ before → find_sep [c] (before ++ c :: after) = Some (before, after).
Proof.
  induction before as [|x t IH]; intros Hc.
  - rewrite find_sep_unfold. simpl. by rewrite N.eqb_refl.
  - apply not_elem_of_cons in Hc as [Hx Ht].
    rewrite find_sep_unfold. simpl startswith.
    destruct (N.eqb_spec c x) as [->|_]; [done|]. simpl.
    by rewrite (IH Ht).
Qed.

Lemma find_char_absent c s : c ∉ s → find_sep [c] s = None.
Proof.
  induction s as [|x t IH]; intros Hc; [done|].
  apply not_elem_of_cons in Hc as [Hx Ht].
  rewrite find_sep_unfold. simpl startswith.
  destruct (N.eqb_spec c x) as [->|_]; [done|]. simpl.
  by rewrite (IH Ht).
Qed.

(** A locator built from a bucket without slash and a key parses back to
    that bucket and key; without a key part the key comes back empty. *)
Theorem parse_s3_uri_of_parts (bucket key : list N) :
  chr "/" ∉ bucket →
  parse_s3_uri (str "s3://" ++ bucket ++ chr "/" :: key) = Some (bucket, key)
  ∧ parse_s3_uri (str "s3://" ++ bucket) = Some (bucket, []).
Proof.
  intros Hb. rewrite !parse_s3_uri_prefixed.
  by rewrite find_char_found, find_char_absent.
Qed.

(** The parser raises exactly on the strings that do not start with the
    scheme prefix; the prefix is matched case-sensitively and at position 0
    only. *)
Theorem parse_s3_uri_rejects (uri : list N) :
  parse_s3_uri uri = None ↔ ¬ ∃ rest, uri = str "s3://" ++ rest.
Proof.
  split.
  - intros H [rest ->]. rewrite parse_s3_uri_prefixed in H.
    by destruct (find_sep _ _) as [[b k]|].
  - intros H. unfold parse_s3_uri.
    destruct (startswith (str "s3://") uri) eqn:E; [|done].
    destruct H. by apply startswith_inv.
Qed.

(** ** Sanitizer *)

(** The sanitized name is usable as one segment of a key: it is not empty,
    holds only letters, digits and [._-], in particular no slash, and
    neither starts nor ends with one of [._-]. *)
Theorem safe_filename_segment (name : list N) :
  safe_filename name ≠ []
  ∧ Forall (fun c => allowed c = true) (safe_filename name)
  ∧ (chr "/" ∉ safe_filename name)
  ∧ (∀ c, head (safe_filename name) = Some c → is_trim c = false)
  ∧ (∀ c, last (safe_filename name) = Some c → is_trim c = false).
Proof.
  destruct (safe_filename_clean name) as (Hne & Hall & Hh & Hl).
  split_and!; try done.
  intros Hin. rewrite Forall_forall in Hall. by apply Hall in Hin.
Qed.

(** A name that is already made of letters, digits and [._-] and neither
    starts nor ends with one of [._-] is left as it is. *)
Theorem safe_filename_keeps_clean (name : list N) :
  name ≠ [] →
  Forall (fun c => allowed c = true) name →
  (∀ c, head name = Some c → is_trim c = false) →
  (∀ c, last name = Some c → is_trim c = false) →
  safe_filename name = name.
Proof. intros. by apply safe_filename_fixed. Qed.

(** [str(n)] determines [n]. *)
Lemma uint_digits_inj d d' : uint_digits d = uint_digits d' → d = d'.
Proof.
  revert d'. induction d; intros d'; destruct d'; simpl; try done;
    intros [= H]; f_equal; by apply IHd.
Qed.

Lemma str_of_nat_inj n m : str_of_nat n = str_of_nat m → n = m.
Proof.
  unfold str_of_nat. intros H%uint_digits_inj.
  by apply DecimalNat.Unsigned.to_uint_inj.
Qed.

(** ** Whole runs *)

(** Membership of an exception in a list that does not hold it. *)
Ltac absurd_member H :=
  repeat (apply elem_of_cons in H as [H|H]; [discriminate H|]);
  by apply elem_of_nil in H.

Section Runs.
Context {ext : External}.
Context (a : args_ns) (src : csv_source).

Local Abbreviation with_header := (str2bool (include_header a)).
Local Abbreviation with_log := (str2bool (write_run_log a)).

(** What a run on two good locators has written, whatever its outcome:
    the per-row objects of the rows it got through, then possibly the
    manifest and the summary, then possibly the failure report. *)
Lemma main_written input_bucket input_key ob key res s :
  parse_s3_uri (input_s3_uri a) = Some (input_bucket, input_key) →
  parse_s3_uri (output_s3_uri a) = Some (ob, key) →
  main a src = (res, s) →
  ∃ rows rest mid report,
    src_rows src = (Some <$> rows) ++ rest
    ∧ row_outputs a with_header ob (normalize_prefix key)
                  (header_fields src) rows (row_objects s)
    ∧ s3_objects s = row_objects s ++ mid ++ report
    ∧ committed s = true
    ∧ (mid = []
       ∨ rest = [] ∧ header_fields src ≠ [] ∧ total s = length rows
         ∧ ∃ tail,
             mid = manifest_request a ob (normalize_prefix key)
                     (expected_files a ob (normalize_prefix key) rows)
                     (length rows) :: tail
             ∧ (tail = []
                ∨ with_log = true ∧ res = inr tt
                  ∧ tail = [summary_request a ob (normalize_prefix key)
                              (length rows) (Some (header_fields src))]))
    ∧ match res with
      | inr _ =>
          report = [] ∧ mid ≠ [] ∧ (with_log = true → length mid = 2%nat)
      | inl e =>
          (report = []
           ∨ with_log = true
             ∧ report = [failure_request a ob (normalize_prefix key) e
                           (total s) (fieldnames s)])
          ∧ (mid ≠ [] → e = PutFailed ∧ with_log = true)
          ∧ (e = RowReadFailed →
               total s = length rows ∧ ∃ rest', rest = None :: rest')
          ∧ (e = WriteRowFailed ∨ e = EncodeFailed →
               total s = S (length rows) ∧ ∃ r rest', rest = Some r :: rest')
          ∧ (e = NoHeader ∨ e = ReadFailed →
               total s = 0%nat ∧ rows = [] ∧ header_fields src = [])
          ∧ e ≠ InvalidUri
      end.
Proof.
  intros Hin Hout Hmain. unfold main in Hmain. rewrite Hin, Hout in Hmain.
  apply try_except_finally_ended in Hmain
    as (s1 & report & Hend & Ht & _ & Hfn & Hc & Hobjs & Hreport).
  assert (Hrep : Forall (fun p => is_row_object p = false) report).
  { destruct res as [e|[]]; [|by subst].
    destruct Hreport as [[->|[_ ->]] _]; [done|]. by repeat constructor. }
  assert (Hreport' : match res with
            | inr _ => report = []
            | inl e => report = []
                ∨ with_log = true
                  ∧ report = [failure_request a ob (normalize_prefix key) e
                                (total s) (fieldnames s)]
            end).
  { destruct res as [e|[]]; [|done]. rewrite Ht, Hfn. by destruct Hreport. }
  clear Hreport. unfold header_fields.
  inversion Hend as
    [ fields rows objs s' Hh Hne Hrows [Hk Hw] Ht' Hm Hf Hs
    | s' Hh Ht' Hm Hf Hs
    | f s' Hh Hfalsy Ht' Hm Hf Hs
    | fields rows item rest objs e s' Hh Hne Hrows [Hk Hw] Hm Hf Hitem Hs
    | fields rows objs s' Hh Hne Hrows [Hk Hw] Ht' Hm Hf Hs
    | fields rows objs s' Hlog Hh Hne Hrows [Hk Hw] Ht' Hm Hf Hs ];
    subst; rewrite Hh.
  - (* success *)
    simpl in Hreport'. subst report. rewrite app_nil_r in Hobjs.
    set (mid := manifest_request a ob (normalize_prefix key)
                  (expected_files a ob (normalize_prefix key) rows)
                  (length rows)
                :: (if str2bool (write_run_log a)
                    then [summary_request a ob (normalize_prefix key)
                            (length rows) (Some fields)]
                    else [])) in *.
    assert (Hrow : row_objects s = objs).
    { rewrite Hs in Hobjs.
      eapply row_objects_of; [exact Hw| |exact Hobjs]. unfold mid.
      destruct (str2bool (write_run_log a)); by repeat constructor. }
    exists rows, [], mid, []. rewrite Hrow, !app_nil_r.
    split_and!; try done.
    + by rewrite Hobjs, Hs.
    + right. split_and!; [done|done|congruence|]. unfold mid.
      eexists. split; [done|].
      destruct (str2bool (write_run_log a)); [by right|by left].
    + unfold mid. by intros ->.
  - (* the header could not be read *)
    rewrite Hs in Hobjs. simpl in Hobjs.
    assert (Hrow : row_objects s = [])
      by (eapply (row_objects_of a ob [] [] []);
            [constructor|exact Hrep|exact Hobjs]).
    exists [], (src_rows src), [], report. rewrite Hrow.
    split_and!; try done; try (by left); try (by intros [|]);
      try congruence.
    intros _. split_and!; [congruence|done|done].
  - (* no header *)
    rewrite Hs in Hobjs. simpl in Hobjs.
    assert (Hrow : row_objects s = [])
      by (eapply (row_objects_of a ob [] [] []);
            [constructor|exact Hrep|exact Hobjs]).
    exists [], (src_rows src), [], report. rewrite Hrow.
    split_and!; try done; try (by left); try (by intros [|]);
      try congruence.
    intros _. split_and!; [congruence|done|by destruct Hfalsy as [->| ->]].
  - (* a turn of the loop or the reader raised *)
    assert (Hrow : row_objects s = s3_objects s1)
      by (eapply row_objects_of; [exact Hw|exact Hrep|exact Hobjs]).
    exists rows, (item :: rest), [], report. rewrite Hrow.
    split_and!; try done; try (by left).
    + intros ->. destruct item as [r|].
      * destruct Hitem as [Hitem _]. absurd_member Hitem.
      * destruct Hitem as [_ Hitem]. split; [congruence|by eexists].
    + intros He. destruct item as [r|].
      * destruct Hitem as [_ Hitem]. split; [congruence|by eexists _, _].
      * destruct Hitem as [-> _]. by destruct He.
    + intros He. destruct item as [r|]; destruct Hitem as [Hitem _].
      * destruct He as [->| ->]; absurd_member Hitem.
      * subst. by destruct He.
    + intros ->. destruct item as [r|]; destruct Hitem as [Hitem _];
        [absurd_member Hitem|done].
  - (* the write of the manifest raised *)
    assert (Hrow : row_objects s = s3_objects s1)
      by (eapply row_objects_of; [exact Hw|exact Hrep|exact Hobjs]).
    exists rows, [], [], report. rewrite Hrow, app_nil_r.
    split_and!; try done; try (by left); by intros [|].
  - (* the write of the summary raised *)
    rewrite Hs, <- app_assoc in Hobjs.
    assert (Hrow : row_objects s = objs).
    { eapply row_objects_of; [exact Hw| |exact Hobjs].
      apply Forall_app. split; [by repeat constructor|done]. }
    exists rows, [], [manifest_request a ob (normalize_prefix key)
      (expected_files a ob (normalize_prefix key) rows) (length rows)], report.
    rewrite Hrow, app_nil_r.
    split_and!; try done; try (by intros [|]).
    right. split_and!; [done|done|congruence|].
    eexists. split; [done|by left].
Qed.

Lemma written_for_no_summary ob fields rows objs :
  Forall2 (written_for a with_header ob fields) rows objs →
  omap (fun req => match Body req with SummaryJson d => Some d | _ => None end)
       objs = [].
Proof.
  induction 1 as [|r p rows objs (_ & _ & text & data & _ & _ & Hb) _ IH];
    [done|].
  simpl. by rewrite Hb.
Qed.

(** A locator that does not parse ends the run at once with the locator
    error: nothing is written and the job is not committed.  The locator
    error has no other cause. *)
Theorem invalid_locator_run :
  (parse_s3_uri (input_s3_uri a) = None
   ∨ parse_s3_uri (output_s3_uri a) = None →
   main a src = (inl InvalidUri, initial))
  ∧ (fst (main a src) = inl InvalidUri →
     parse_s3_uri (input_s3_uri a) = None
     ∨ parse_s3_uri (output_s3_uri a) = None).
Proof.
  split.
  - intros H. unfold main.
    destruct (parse_s3_uri (input_s3_uri a)) as [[ib ik]|]; [|done].
    destruct H as [H|H]; [done|]. by rewrite H.
  - intros H.
    destruct (parse_s3_uri (input_s3_uri a)) as [[ib ik]|] eqn:Hin;
      [|by left].
    destruct (parse_s3_uri (output_s3_uri a)) as [[ob key]|] eqn:Hout;
      [|by right].
    destruct (main a src) as [res s] eqn:Hmain. simpl in H. subst res.
    destruct (main_written _ _ _ _ _ _ Hin Hout Hmain)
      as (rows & rest & mid & report & _ & _ & _ & _ & _ & Hres).
    by destruct Hres as (_ & _ & _ & _ & _ & Hne).
Qed.

(** The three kinds of document among the objects of a run. *)
Lemma documents_written ob fields rows mid report s :
  Forall2 (written_for a with_header ob fields) rows (row_objects s) →
  s3_objects s = row_objects s ++ mid ++ report →
  manifests s
  = omap (fun req => match Body req with ManifestJson m => Some m | _ => None end)
         (mid ++ report)
  ∧ summaries s
    = omap (fun req => match Body req with SummaryJson d => Some d | _ => None end)
           (mid ++ report)
  ∧ failure_reports s
    = omap (fun req => match Body req with FailedJson d => Some d | _ => None end)
           (mid ++ report).
Proof.
  intros Hw Hs. unfold manifests, summaries, failure_reports.
  rewrite Hs, !omap_app.
  rewrite (written_for_no_manifest _ _ _ _ _ Hw).
  rewrite (written_for_no_summary _ _ _ _ Hw).
  by rewrite (written_for_no_report _ _ _ _ _ Hw).
Qed.

(** A run that raises writes no summary and at most one failure report;
    with reporting off it writes none.  The report names the exception
    that the run raises and carries the row count and the field names as
    they were when it was raised. *)
Theorem failure_report_contents e s :
  main a src = (inl e, s) →
  summaries s = []
  ∧ (length (failure_reports s) ≤ 1)%nat
  ∧ (with_log = false → failure_reports s = [])
  ∧ ∀ d, d ∈ failure_reports s →
      f_error d = e ∧ f_processed_rows d = total s
      ∧ f_fieldnames d = fieldnames s ∧ f_input d = input_s3_uri a
      ∧ f_id_column d = id_column a.
Proof.
  intros Hmain.
  destruct (parse_s3_uri (input_s3_uri a)) as [[ib ik]|] eqn:Hin.
  2:{ unfold main in Hmain. rewrite Hin in Hmain. injection Hmain as <- <-.
      split_and!; try done. simpl. lia. by intros d ?%elem_of_nil. }
  destruct (parse_s3_uri (output_s3_uri a)) as [[ob key]|] eqn:Hout.
  2:{ unfold main in Hmain. rewrite Hin, Hout in Hmain.
      injection Hmain as <- <-.
      split_and!; try done. simpl. lia. by intros d ?%elem_of_nil. }
  destruct (main_written _ _ _ _ _ _ Hin Hout Hmain)
    as (rows & rest & mid & report & _ & [_ Hw] & Hs & _ & Hmid & Hres).
  destruct Hres as (Hreport & Hmid' & _).
  destruct (documents_written _ _ _ _ _ _ Hw Hs) as (_ & -> & ->).
  rewrite !omap_app.
  assert (Hm :
    omap (fun req => match Body req with SummaryJson d => Some d | _ => None end)
         mid = []
    ∧ omap (fun req => match Body req with FailedJson d => Some d | _ => None end)
           mid = []).
  { destruct Hmid as [->|(_ & _ & _ & tail & -> & [->|(_ & [=] & _)])];
      by split. }
  destruct Hm as [-> ->].
  destruct Hreport as [->|[Hlog ->]]; simpl.
  - split_and!; try done; [lia|]. by intros d ?%elem_of_nil.
  - split_and!; try done; [congruence|].
    by intros d ->%list_elem_of_singleton.
Qed.

(** A run that succeeds writes no failure report; it writes the summary
    exactly when reporting is on, as the last request, with the number of
    rows the reader yielded, the field names and the location of the
    manifest. *)
Theorem success_summary ob key s :
  parse_s3_uri (output_s3_uri a) = Some (ob, key) →
  main a src = (inr tt, s) →
  ∃ rows,
    src_rows src = Some <$> rows
    ∧ failure_reports s = []
    ∧ (with_log = false → summaries s = [])
    ∧ (with_log = true →
       last (s3_objects s)
       = Some (summary_request a ob (normalize_prefix key)
                 (length rows) (Some (header_fields src)))
       ∧ ∃ d, summaries s = [d]
            ∧ s_total_rows d = length rows
            ∧ s_fieldnames d = Some (header_fields src)
            ∧ s_manifest d
              = str "s3://" ++ ob ++ str "/"
                  ++ manifest_key_of (normalize_prefix key)).
Proof.
  intros Hout Hmain.
  destruct (parse_s3_uri (input_s3_uri a)) as [[ib ik]|] eqn:Hin.
  2:{ unfold main in Hmain. by rewrite Hin in Hmain. }
  destruct (main_written _ _ _ _ _ _ Hin Hout Hmain)
    as (rows & rest & mid & report & Hrows & [_ Hw] & Hs & _ & Hmid & Hres).
  destruct Hres as (-> & Hne & Hlen).
  destruct (documents_written _ _ _ _ _ _ Hw Hs) as (_ & -> & ->).
  rewrite app_nil_r in *.
  destruct Hmid as [->|(-> & _ & _ & tail & -> & Htail)]; [done|].
  rewrite app_nil_r in Hrows. exists rows. split; [done|].
  destruct Htail as [->|(Hlog & _ & ->)].
  - split_and!; try done. intros Hlog. by specialize (Hlen Hlog).
  - split_and!; try done; [congruence|]. intros _. split.
    + by rewrite Hs, last_app.
    + by eexists.
Qed.

(** A manifest is written only after the whole input: if a manifest request
    succeeded, the reader was exhausted without error, as many per-row
    requests as there are rows succeeded before it, and it is the only
    manifest and counts those rows.  This holds even when the run goes on
    to fail on the summary.  (These are requests: two of them may have
    written to one key.) *)
Theorem manifest_means_complete res s :
  main a src = (res, s) →
  manifests s ≠ [] →
  ∃ rows m req tail,
    src_rows src = Some <$> rows
    ∧ length (row_objects s) = length rows
    ∧ manifests s = [m]
    ∧ m_total_rows m = length rows
    ∧ length (m_files m) = length rows
    ∧ s3_objects s = row_objects s ++ req :: tail
    ∧ Body req = ManifestJson m.
Proof.
  intros Hmain Hm.
  destruct (parse_s3_uri (input_s3_uri a)) as [[ib ik]|] eqn:Hin.
  2:{ unfold main in Hmain. rewrite Hin in Hmain. by injection Hmain as <- <-. }
  destruct (parse_s3_uri (output_s3_uri a)) as [[ob key]|] eqn:Hout.
  2:{ unfold main in Hmain. rewrite Hin, Hout in Hmain.
      by injection Hmain as <- <-. }
  destruct (main_written _ _ _ _ _ _ Hin Hout Hmain)
    as (rows & rest & mid & report & Hrows & [_ Hw] & Hs & _ & Hmid & Hres).
  destruct (documents_written _ _ _ _ _ _ Hw Hs) as (Hman & _ & _).
  assert (Hrep :
    omap (fun req => match Body req with ManifestJson m => Some m | _ => None end)
         report = []).
  { destruct res as [e|[]].
    - by destruct Hres as ([->|[_ ->]] & _).
    - by destruct Hres as (-> & _). }
  rewrite omap_app, Hrep, app_nil_r in Hman.
  destruct Hmid as [->|(-> & _ & _ & tail & -> & Htail)];
    [by rewrite Hman in Hm|].
  rewrite app_nil_r in Hrows.
  assert (Hdoc : ∃ m req,
            manifests s = [m] ∧ m_total_rows m = length rows
            ∧ m_files m = expected_files a ob (normalize_prefix key) rows
            ∧ s3_objects s = row_objects s ++ req :: tail ++ report
            ∧ Body req = ManifestJson m).
  { rewrite Hman, Hs.
    destruct Htail as [->|(_ & _ & ->)]; eexists _, _; simpl;
      by split_and!. }
  destruct Hdoc as (m & req & Hm1 & Hm2 & Hm3 & Hm4 & Hm5).
  exists rows, m, req, (tail ++ report).
  split_and!; try done.
  - symmetry. by eapply Forall2_length.
  - rewrite Hm3. apply length_expected_files.
Qed.

(** Every object of a run goes to the output bucket, under the normalized
    output prefix. *)
Theorem writes_stay_under_prefix ob key res s p :
  parse_s3_uri (output_s3_uri a) = Some (ob, key) →
  main a src = (res, s) →
  p ∈ s3_objects s →
  Bucket p = ob ∧ ∃ name, Key p = normalize_prefix key ++ name.
Proof.
  intros Hout Hmain Hp.
  destruct (parse_s3_uri (input_s3_uri a)) as [[ib ik]|] eqn:Hin.
  2:{ unfold main in Hmain. rewrite Hin in Hmain. injection Hmain as <- <-.
      by apply elem_of_nil in Hp. }
  destruct (main_written _ _ _ _ _ _ Hin Hout Hmain)
    as (rows & rest & mid & report & _ & [Hk Hw] & Hs & _ & Hmid & Hres).
  rewrite Hs in Hp. apply elem_of_app in Hp as [Hp|Hp].
  - apply list_elem_of_lookup in Hp as [i Hi].
    destruct (Forall2_lookup_r _ _ _ _ _ Hw Hi) as (r & _ & Hb & _).
    split; [done|].
    assert (Hki : (Key <$> row_objects s) !! i = Some (Key p))
      by by rewrite list_lookup_fmap, Hi.
    rewrite Hk in Hki. unfold expected_keys in Hki.
    rewrite list_lookup_imap in Hki.
    destruct (rows !! i); [|done]. injection Hki as <-.
    unfold expected_key, out_key. by eexists.
  - apply elem_of_app in Hp as [Hp|Hp].
    + destruct Hmid as [->|(_ & _ & _ & tail & -> & Htail)];
        [by apply elem_of_nil in Hp|].
      apply elem_of_cons in Hp as [->|Hp].
      * split; [done|]. by eexists.
      * destruct Htail as [->|(_ & _ & ->)]; [by apply elem_of_nil in Hp|].
        apply list_elem_of_singleton in Hp as ->. split; [done|]. by eexists.
    + destruct res as [e|[]].
      * destruct Hres as ([->|[_ ->]] & _); [by apply elem_of_nil in Hp|].
        apply list_elem_of_singleton in Hp as ->. split; [done|]. by eexists.
      * destruct Hres as (-> & _). by apply elem_of_nil in Hp.
Qed.

(** A per-row object is written to a key that ends in [.csv], so it never
    takes the place of the manifest, the summary or the failure report. *)
Theorem row_keys_apart_from_reports ob key res s p :
  parse_s3_uri (output_s3_uri a) = Some (ob, key) →
  main a src = (res, s) →
  p ∈ row_objects s →
  (∃ name, Key p = normalize_prefix key ++ name ++ str ".csv")
  ∧ Key p ≠ normalize_prefix key ++ str "_MANIFEST.json"
  ∧ Key p ≠ normalize_prefix key ++ str "RUN_SUMMARY.json"
  ∧ Key p ≠ normalize_prefix key ++ str "RUN_FAILED.txt".
Proof.
  intros Hout Hmain Hp.
  apply main_row_objects in Hmain
    as (ob' & prefix & rows & rest & Hloc & _ & _ & Hk & _).
  destruct (Hloc _ _ Hout) as [-> ->].
  apply list_elem_of_lookup in Hp as [i Hi].
  assert (Hki : (Key <$> row_objects s) !! i = Some (Key p))
    by by rewrite list_lookup_fmap, Hi.
  rewrite Hk in Hki. unfold expected_keys in Hki.
  rewrite list_lookup_imap in Hki.
  destruct (rows !! i); [|done]. injection Hki as <-.
  unfold expected_key, out_key.
  set (name := spec_final_name _ _).
  assert (Hlast : last (name ++ str ".csv") = Some (chr "v"))
    by by rewrite last_app.
  split_and!; [by eexists|..];
    intros H%app_inv_head; rewrite H in Hlast; by vm_compute in Hlast.
Qed.

(** *** When keys are distinct *)

Lemma occurrences_absent b l : b ∉ l → occurrences b l = 0%nat.
Proof.
  unfold occurrences. induction l as [|x l IH]; intros Hb; [done|].
  apply not_elem_of_cons in Hb as [Hx Hl].
  rewrite filter_cons. destruct (decide (x = b)); [congruence|by apply IH].
Qed.

Lemma occurrences_grow b bs i j :
  (i < j)%nat → bs !! i = Some b →
  (occurrences b (take i bs) < occurrences b (take j bs))%nat.
Proof.
  intros Hij Hi.
  rewrite <- (take_drop_middle bs i b Hi) at 2.
  rewrite take_app_ge; rewrite length_take_le;
    try (apply lookup_lt_Some in Hi; lia).
  destruct (j - i)%nat as [|k] eqn:Hk; [lia|]. simpl.
  unfold occurrences. rewrite filter_app, length_app, filter_cons.
  destruct (decide (b = b)); [|done]. simpl. lia.
Qed.

Lemma out_key_inj prefix x y : out_key prefix x = out_key prefix y → x = y.
Proof. unfold out_key. intros H%app_inv_head. by apply app_inv_tail in H. Qed.

Lemma final_names_differ b n m :
  n ≠ m → final_name b n ≠ final_name b m.
Proof.
  intros Hnm. unfold final_name.
  destruct (Nat.eqb_spec n 0) as [->|Hn], (Nat.eqb_spec m 0) as [->|Hm];
    [done| | |].
  - intros H. apply (f_equal length) in H. rewrite length_app in H.
    simpl in H. lia.
  - intros H. apply (f_equal length) in H. rewrite length_app in H.
    simpl in H. lia.
  - intros H%app_inv_head. injection H as H. by apply str_of_nat_inj in H.
Qed.

Lemma spec_final_name_count bs i b :
  bs !! i = Some b →
  spec_final_name bs i = final_name b (occurrences b (take i bs)).
Proof.
  intros Hi. unfold spec_final_name, final_name. rewrite Hi.
  by destruct (occurrences b (take i bs)).
Qed.

(** The keys of a run are those of the rows it reached; the base names of
    those rows are the first base names of the input. *)
Lemma row_keys_by_base res s :
  main a src = (res, s) →
  ∃ prefix, ∀ i p,
    row_objects s !! i = Some p →
    is_Some (bases (id_column a) (rows_before_error (src_rows src)) !! i)
    ∧ Key p
      = out_key prefix
          (spec_final_name
             (bases (id_column a) (rows_before_error (src_rows src))) i).
Proof.
  intros Hmain.
  apply main_row_objects in Hmain
    as (ob & prefix & rows & rest & _ & Hrows & _ & Hk & _).
  exists prefix. intros i p Hp.
  assert (Hi : (Key <$> row_objects s) !! i = Some (Key p))
    by by rewrite list_lookup_fmap, Hp.
  rewrite Hk in Hi. unfold expected_keys in Hi.
  rewrite list_lookup_imap in Hi.
  destruct (rows !! i) as [r|] eqn:Hr; [|done]. injection Hi as <-.
  pose proof (lookup_lt_Some _ _ _ Hr) as Hlt.
  rewrite Hrows, rows_before_error_app. split.
  - unfold bases. rewrite list_lookup_imap, lookup_app_l by done.
    by rewrite Hr.
  - symmetry. by apply expected_key_app_l.
Qed.

(** Two rows with the same base name are never written to the same key:
    the counter gives each occurrence its own suffix. *)
Theorem same_base_distinct_keys res s i j p q b :
  main a src = (res, s) →
  i ≠ j →
  row_objects s !! i = Some p →
  row_objects s !! j = Some q →
  bases (id_column a) (rows_before_error (src_rows src)) !! i = Some b →
  bases (id_column a) (rows_before_error (src_rows src)) !! j = Some b →
  Key p ≠ Key q.
Proof.
  intros Hmain Hij Hp Hq Hbi Hbj.
  destruct (row_keys_by_base _ _ Hmain) as (prefix & Hkeys).
  destruct (Hkeys _ _ Hp) as [_ ->]. destruct (Hkeys _ _ Hq) as [_ ->].
  intros H%out_key_inj.
  rewrite (spec_final_name_count _ _ _ Hbi) in H.
  rewrite (spec_final_name_count _ _ _ Hbj) in H.
  revert H. apply final_names_differ.
  destruct (Nat.lt_total i j) as [Hlt|[->|Hlt]]; [|done|].
  - pose proof (occurrences_grow _ _ _ _ Hlt Hbi). lia.
  - pose proof (occurrences_grow _ _ _ _ Hlt Hbj). lia.
Qed.

(** When the base names of the rows are pairwise distinct, every row is
    written under its bare base name and no two rows share a key. *)
Theorem distinct_bases_distinct_keys res s :
  main a src = (res, s) →
  NoDup (bases (id_column a) (rows_before_error (src_rows src))) →
  NoDup (Key <$> row_objects s)
  ∧ ∀ i p, row_objects s !! i = Some p →
      ∃ prefix b,
        bases (id_column a) (rows_before_error (src_rows src)) !! i = Some b
        ∧ Key p = prefix ++ b ++ str ".csv".
Proof.
  intros Hmain Hnd.
  destruct (row_keys_by_base _ _ Hmain) as (prefix & Hkeys).
  assert (Hbare : ∀ i p, row_objects s !! i = Some p →
            ∃ b, bases (id_column a) (rows_before_error (src_rows src)) !! i
                 = Some b
                 ∧ Key p = out_key prefix b).
  { intros i p Hp. destruct (Hkeys _ _ Hp) as [[b Hb] ->].
    exists b. split; [done|].
    rewrite (spec_final_name_count _ _ _ Hb), occurrences_absent; [done|].
    intros Hin. apply list_elem_of_lookup in Hin as [k Hk].
    pose proof (lookup_lt_Some _ _ _ Hk) as Hlt.
    rewrite length_take in Hlt.
    rewrite lookup_take_lt in Hk by lia.
    pose proof (NoDup_lookup _ _ _ _ Hnd Hk Hb). lia. }
  split.
  - apply NoDup_alt. intros i j k Hi Hj.
    rewrite list_lookup_fmap in Hi, Hj.
    destruct (row_objects s !! i) as [p|] eqn:Hp; [|done].
    destruct (row_objects s !! j) as [q|] eqn:Hq; [|done].
    injection Hi as Hi. injection Hj as Hj.
    destruct (Hbare _ _ Hp) as (b & Hb & Hkp).
    destruct (Hbare _ _ Hq) as (b' & Hb' & Hkq).
    rewrite Hkp in Hi. rewrite Hkq, <- Hi in Hj.
    apply out_key_inj in Hj as ->.
    by eapply NoDup_lookup.
  - intros i p Hp. destruct (Hbare _ _ Hp) as (b & Hb & ->).
    by exists prefix, b.
Qed.

(** *** Contents and ragged rows *)

(** With the header flag on, the [i]-th per-row object holds two records,
    each with its line terminator: the field names, then the [i]-th row. *)
Theorem row_object_with_header res s i p :
  str2bool (include_header a) = true →
  main a src = (res, s) →
  row_objects s !! i = Some p →
  ∃ r values data,
    src_rows src !! i = Some (Some r)
    ∧ dict_to_list (header_fields src) r = Some values
    ∧ encode (encoding a)
        (csv_record (delimiter a) (quotechar a) (header_fields src) ++ [10]
         ++ csv_record (delimiter a) (quotechar a) values ++ [10])
      = Some data
    ∧ Body p = RowData data.
Proof.
  intros Hflag Hmain Hp.
  apply main_row_objects in Hmain
    as (ob & prefix & rows & rest & _ & Hrows & _ & _ & Hw).
  destruct (Forall2_lookup_r _ _ _ _ _ Hw Hp)
    as (r & Hr & _ & _ & text & data & Htext & Hdata & Hbody).
  rewrite Hflag in Htext. unfold row_text in Htext.
  destruct (dict_to_list (header_fields src) r) as [values|] eqn:Hvalues;
    [|done].
  injection Htext as <-. rewrite <- app_assoc in Hdata.
  exists r, values, data. split_and!; try done.
  rewrite Hrows, lookup_app_l.
  - by rewrite list_lookup_fmap, Hr.
  - rewrite length_fmap. by eapply lookup_lt_Some.
Qed.

(** A row with more fields than the header (the reader files the surplus
    under the key [None]) cannot be written: the run does not succeed, and
    neither that row nor any row after it gets a per-row object. *)
Theorem surplus_fields_stop_the_run res s i r extra :
  main a src = (res, s) →
  src_rows src !! i = Some (Some r) →
  restkey r = Some extra →
  res ≠ inr tt ∧ (length (row_objects s) ≤ i)%nat.
Proof.
  intros Hmain Hi Hextra.
  apply main_row_objects in Hmain
    as (ob & prefix & rows & rest & _ & Hrows & Hok & _ & Hw).
  assert (Hlen : (length rows ≤ i)%nat).
  { destruct (decide (i < length rows)%nat) as [Hlt|]; [|lia]. exfalso.
    rewrite Hrows, lookup_app_l in Hi by by rewrite length_fmap.
    rewrite list_lookup_fmap in Hi.
    destruct (rows !! i) as [r'|] eqn:Hr; [|done]. injection Hi as ->.
    destruct (Forall2_lookup_l _ _ _ _ _ Hw Hr)
      as (p & _ & _ & _ & text & data & Htext & _).
    unfold row_text, dict_to_list in Htext. rewrite Hextra in Htext.
    rewrite bool_decide_eq_false_2 in Htext; [done|]. by intros [? _]. }
  split.
  - intros ->. rewrite (Hok eq_refl), app_nil_r in Hrows.
    apply lookup_lt_Some in Hi. rewrite Hrows, length_fmap in Hi. lia.
  - by rewrite <- (Forall2_length _ _ _ Hw).
Qed.

(** When the reader raises while iterating, the row count in the locals and
    in the failure report is the number of per-row objects written, no
    manifest is written, and the item at that position is the one the
    reader failed on. *)
Theorem read_error_count s :
  main a src = (inl RowReadFailed, s) →
  total s = length (row_objects s)
  ∧ manifests s = []
  ∧ src_rows src !! length (row_objects s) = Some None
  ∧ ∀ d, d ∈ failure_reports s →
      f_processed_rows d = length (row_objects s).
Proof.
  intros Hmain.
  destruct (parse_s3_uri (input_s3_uri a)) as [[ib ik]|] eqn:Hin.
  2:{ unfold main in Hmain. by rewrite Hin in Hmain. }
  destruct (parse_s3_uri (output_s3_uri a)) as [[ob key]|] eqn:Hout.
  2:{ unfold main in Hmain. by rewrite Hin, Hout in Hmain. }
  destruct (main_written _ _ _ _ _ _ Hin Hout Hmain)
    as (rows & rest & mid & report & Hrows & [_ Hw] & Hs & _ & Hmid & Hres).
  destruct Hres as (Hreport & Hmid' & Hread & _).
  destruct (Hread eq_refl) as (Ht & rest' & ->).
  pose proof (Forall2_length _ _ _ Hw) as Hlen.
  assert (mid = []) as ->.
  { destruct mid; [done|]. by destruct Hmid' as [[=] _]. }
  destruct (documents_written _ _ _ _ _ _ Hw Hs) as (-> & _ & ->).
  simpl. split_and!.
  - congruence.
  - by destruct Hreport as [->|[_ ->]].
  - rewrite Hrows, <- Hlen.
    rewrite lookup_app_r by by rewrite length_fmap.
    by rewrite length_fmap, Nat.sub_diag.
  - destruct Hreport as [->|[_ ->]]; simpl.
    + by intros d ?%elem_of_nil.
    + intros d ->%list_elem_of_singleton. simpl. congruence.
Qed.

(** *** Flags on ASCII text *)

(** On ASCII text the test of a flag does not depend on the Unicode tables:
    the flag is on exactly when the text, with [A]-[Z] turned into
    [a]-[z], is one of the five words; so the test ignores case and
    nothing else, e.g. surrounding blanks are not removed. *)
Theorem str2bool_ascii (value : list N) :
  Forall (fun c => c < 128) value →
  (str2bool value = true ↔ ascii_lower <$> value ∈ truthy_words).
Proof.
  intros H. rewrite str2bool_true. unfold lower.
  by rewrite lower_ascii_from.
Qed.

End Runs.

(** ** The store after a run *)

Lemma store_of_snoc l p :
  store_of (l ++ [p]) = <[location p := p]> (store_of l).
Proof. unfold store_of. by rewrite foldl_snoc. Qed.

Lemma store_of_fresh l k : k ∉ location <$> l → store_of l !! k = None.
Proof.
  induction l as [|p l IH] using rev_ind; intros Hk; [done|].
  rewrite fmap_app in Hk. apply not_elem_of_app in Hk as [Hl Hp].
  rewrite store_of_snoc, lookup_insert_ne; [by apply IH|].
  intros E. apply Hp. rewrite <- E. by left.
Qed.

(** When no two requests went to the same location, the store holds every
    request of the log. *)
Lemma store_of_holds l p :
  NoDup (location <$> l) → p ∈ l → store_of l !! location p = Some p.
Proof.
  induction l as [|x l IH] using rev_ind; intros Hnd Hp;
    [by apply elem_of_nil in Hp|].
  rewrite fmap_app in Hnd. apply NoDup_app in Hnd as (Hl & Hfresh & _).
  rewrite store_of_snoc. apply elem_of_app in Hp as [Hp|Hp].
  - rewrite lookup_insert_ne; [by apply IH|].
    intros E. apply (Hfresh (location p)).
    + by apply list_elem_of_fmap_2.
    + rewrite <- E. by left.
  - apply list_elem_of_singleton in Hp as ->. apply lookup_insert_eq.
Qed.

Lemma store_of_count l :
  NoDup (location <$> l) →
  size (filter (fun kv => is_row_object kv.2 = true) (store_of l))
  = length (filter (fun p => is_row_object p = true) l).
Proof.
  induction l as [|x l IH] using rev_ind; intros Hnd.
  - unfold store_of. simpl. by rewrite map_filter_empty, map_size_empty.
  - rewrite fmap_app in Hnd. apply NoDup_app in Hnd as (Hl & Hfresh & _).
    assert (Hx : store_of l !! location x = None).
    { apply store_of_fresh. intros Hin. apply (Hfresh _ Hin). by left. }
    rewrite store_of_snoc, filter_app, length_app, map_filter_insert.
    rewrite filter_cons, filter_nil. simpl.
    destruct (decide (is_row_object x = true)).
    + rewrite map_size_insert_None, IH by
        (done || by apply map_lookup_filter_None_2; left).
      simpl. lia.
    + rewrite delete_id, IH by done. simpl. lia.
Qed.

Lemma csv_key_apart prefix name :
  out_key prefix name ≠ prefix ++ str "_MANIFEST.json"
  ∧ out_key prefix name ≠ prefix ++ str "RUN_SUMMARY.json".
Proof.
  unfold out_key.
  assert (Hlast : last (name ++ str ".csv") = Some (chr "v"))
    by by rewrite last_app.
  split; intros H%app_inv_head; rewrite H in Hlast; by vm_compute in Hlast.
Qed.

Section Store.
Context {ext : External}.
Context (a : args_ns) (src : csv_source).

(** When the per-row requests of a successful run went to pairwise
    distinct keys, the store holds all of what the run wrote: one per-row
    object for each of the [k] rows, each being the request made for it, and
    the manifest, which counts [k] rows. *)
Theorem distinct_keys_all_stored s :
  main a src = (inr tt, s) →
  NoDup (Key <$> row_objects s) →
  ∃ rows m req,
    src_rows src = Some <$> rows
    ∧ size (stored_rows s) = length rows
    ∧ (∀ p, p ∈ row_objects s → stored s !! location p = Some p)
    ∧ manifests s = [m]
    ∧ stored s !! location req = Some req
    ∧ Body req = ManifestJson m
    ∧ m_total_rows m = length rows.
Proof.
  intros Hmain Hnd.
  destruct (parse_s3_uri (input_s3_uri a)) as [[ib ik]|] eqn:Hin.
  2:{ unfold main in Hmain. by rewrite Hin in Hmain. }
  destruct (parse_s3_uri (output_s3_uri a)) as [[ob key]|] eqn:Hout.
  2:{ unfold main in Hmain. by rewrite Hin, Hout in Hmain. }
  destruct (main_written _ _ _ _ _ _ _ _ Hin Hout Hmain)
    as (rows & rest & mid & report & Hrows & [Hk Hw] & Hs & _ & Hmid & Hres).
  destruct Hres as (-> & Hne & _).
  rewrite app_nil_r in Hs.
  destruct Hmid as [->|(-> & _ & _ & tail & -> & Htail)]; [done|].
  rewrite app_nil_r in Hrows.
  set (prefix := normalize_prefix key) in *.
  set (mreq := manifest_request a ob prefix
                 (expected_files a ob prefix rows) (length rows)) in *.
  (* the locations of the log are pairwise distinct *)
  assert (Hrowloc : ∀ p, p ∈ row_objects s →
            ∃ name, location p = (ob, out_key prefix name)).
  { intros p Hp. apply list_elem_of_lookup in Hp as [i Hi].
    destruct (Forall2_lookup_r _ _ _ _ _ Hw Hi) as (r & Hr & Hb & _).
    assert (Hki : (Key <$> row_objects s) !! i = Some (Key p))
      by by rewrite list_lookup_fmap, Hi.
    rewrite Hk in Hki. unfold expected_keys in Hki.
    rewrite list_lookup_imap, Hr in Hki. injection Hki as Hki.
    eexists. unfold location. by rewrite Hb, <- Hki. }
  assert (Hlocs : NoDup (location <$> s3_objects s)).
  { rewrite Hs, fmap_app. apply NoDup_app. split_and!.
    - apply (NoDup_fmap_1 snd). by rewrite <- list_fmap_compose.
    - intros k Hk1 Hk2.
      apply list_elem_of_fmap in Hk1 as (p & -> & Hp).
      destruct (Hrowloc p Hp) as [name Hloc].
      destruct (csv_key_apart prefix name) as [Hm1 Hm2].
      rewrite Hloc in Hk2.
      destruct Htail as [->|(_ & _ & ->)]; simpl in Hk2.
      + apply list_elem_of_singleton in Hk2. by injection Hk2.
      + apply elem_of_cons in Hk2 as [Hk2|Hk2]; [by injection Hk2|].
        apply list_elem_of_singleton in Hk2. by injection Hk2.
    - destruct Htail as [->|(_ & _ & ->)]; simpl.
      + apply NoDup_singleton.
      + apply NoDup_cons. split; [|apply NoDup_singleton].
        intros H%list_elem_of_singleton. injection H as H.
        apply app_inv_head in H. by vm_compute in H. }
  assert (Hman : manifests s
                 = [{| m_input := input_s3_uri a;
                       m_output_prefix := prefix_uri ob prefix;
                       m_files := expected_files a ob prefix rows;
                       m_total_rows := length rows;
                       m_id_column := id_column a |}]).
  { unfold manifests. rewrite Hs, omap_app.
    rewrite (written_for_no_manifest _ _ _ _ _ Hw). simpl.
    by destruct Htail as [->|(_ & _ & ->)]. }
  eexists rows, _, mreq. split_and!; [done| | |exact Hman| |done|done].
  - transitivity (length (row_objects s)).
    + unfold stored_rows, stored, row_objects.
      apply (store_of_count (s3_objects s) Hlocs).
    + symmetry. by eapply Forall2_length.
  - intros p Hp. apply store_of_holds; [done|].
    rewrite Hs. apply elem_of_app. by left.
  - apply store_of_holds; [done|].
    rewrite Hs. apply elem_of_app. right. by left.
Qed.

End Store.

(** ** The further properties at concrete inputs *)

Lemma parse_s3_uri_of_parts_witness :
  parse_s3_uri (str "s3://" ++ str "b" ++ chr "/" :: str "k/l")
  = Some (str "b", str "k/l")
  ∧ parse_s3_uri (str "s3://" ++ str "b") = Some (str "b", []).
Proof.
  apply parse_s3_uri_of_parts.
  apply not_elem_of_cons. split; [done|apply not_elem_of_nil].
Defined.

Lemma safe_filename_keeps_clean_witness :
  safe_filename (str "ab-1") = str "ab-1".
Proof.
  apply safe_filename_keeps_clean.
  - done.
  - by repeat constructor.
  - by intros c [= <-].
  - intros c H. vm_compute in H. by injection H as <-.
Defined.

Lemma str2bool_ascii_witness :
  @str2bool (store_failing []) (str "YES") = true
  ↔ ascii_lower <$> str "YES" ∈ truthy_words.
Proof.
  apply (str2bool_ascii (ext := store_failing [])).
  by repeat constructor.
Defined.

Lemma failure_report_contents_witness :
  summaries (snd failed_run) = []
  ∧ (length (failure_reports (snd failed_run)) ≤ 1)%nat
  ∧ (@str2bool (store_failing [1%nat]) (str "true") = false →
     failure_reports (snd failed_run) = [])
  ∧ ∀ d, d ∈ failure_reports (snd failed_run) →
      f_error d = PutFailed ∧ f_processed_rows d = total (snd failed_run)
      ∧ f_fieldnames d = fieldnames (snd failed_run)
      ∧ f_input d = str "s3://in/data.csv"
      ∧ f_id_column d = str "source_identifier".
Proof.
  apply (failure_report_contents (ext := store_failing [1%nat])
           (demo_args (str "true") (str "true"))
           (id_source [str "a"; str "b"; str "c"])
           PutFailed (snd failed_run)).
  by vm_compute.
Defined.

Lemma success_summary_witness :
  ∃ rows,
    src_rows (id_source [str "a"; str "b"]) = Some <$> rows
    ∧ failure_reports (snd good_run) = []
    ∧ (@str2bool (store_failing []) (str "true") = false →
       summaries (snd good_run) = [])
    ∧ (@str2bool (store_failing []) (str "true") = true →
       last (s3_objects (snd good_run))
       = Some (@summary_request (demo_args (str "true") (str "true"))
                 (str "out") (normalize_prefix (str "rows"))
                 (length rows)
                 (Some (header_fields (id_source [str "a"; str "b"]))))
       ∧ ∃ d, summaries (snd good_run) = [d]
            ∧ s_total_rows d = length rows
            ∧ s_fieldnames d
              = Some (header_fields (id_source [str "a"; str "b"]))
            ∧ s_manifest d
              = str "s3://" ++ str "out" ++ str "/"
                  ++ manifest_key_of (normalize_prefix (str "rows"))).
Proof.
  apply (success_summary (ext := store_failing [])
           (demo_args (str "true") (str "true"))
           (id_source [str "a"; str "b"]) (str "out") (str "rows")
           (snd good_run)).
  - by vm_compute.
  - by vm_compute.
Defined.

Lemma manifest_means_complete_witness :
  ∃ rows m req tail,
    src_rows (id_source [str "a"; str "b"]) = Some <$> rows
    ∧ length (row_objects (snd good_run)) = length rows
    ∧ manifests (snd good_run) = [m]
    ∧ m_total_rows m = length rows
    ∧ length (m_files m) = length rows
    ∧ s3_objects (snd good_run) = row_objects (snd good_run) ++ req :: tail
    ∧ Body req = ManifestJson m.
Proof.
  apply (manifest_means_complete (ext := store_failing [])
           (demo_args (str "true") (str "true"))
           (id_source [str "a"; str "b"]) (fst good_run) (snd good_run)).
  - by vm_compute.
  - by vm_compute.
Defined.

Lemma writes_stay_under_prefix_witness :
  Bucket (nth_object twin_run 1) = str "out"
  ∧ ∃ name, Key (nth_object twin_run 1) = normalize_prefix (str "rows") ++ name.
Proof.
  apply (writes_stay_under_prefix (ext := store_failing [])
           (demo_args (str "false") (str "true"))
           (id_source [str "a"; str "a"]) (str "out") (str "rows")
           (fst twin_run) (snd twin_run)).
  - by vm_compute.
  - by vm_compute.
  - apply list_elem_of_lookup. exists 1%nat. by vm_compute.
Defined.

Lemma row_keys_apart_from_reports_witness :
  (∃ name, Key (nth_object twin_run 1)
           = normalize_prefix (str "rows") ++ name ++ str ".csv")
  ∧ Key (nth_object twin_run 1)
    ≠ normalize_prefix (str "rows") ++ str "_MANIFEST.json"
  ∧ Key (nth_object twin_run 1)
    ≠ normalize_prefix (str "rows") ++ str "RUN_SUMMARY.json"
  ∧ Key (nth_object twin_run 1)
    ≠ normalize_prefix (str "rows") ++ str "RUN_FAILED.txt".
Proof.
  apply (row_keys_apart_from_reports (ext := store_failing [])
           (demo_args (str "false") (str "true"))
           (id_source [str "a"; str "a"]) (str "out") (str "rows")
           (fst twin_run) (snd twin_run)).
  - by vm_compute.
  - by vm_compute.
  - apply list_elem_of_lookup. exists 1%nat. by vm_compute.
Defined.

Lemma same_base_distinct_keys_witness :
  Key (nth_object twin_run 0) ≠ Key (nth_object twin_run 1).
Proof.
  apply (same_base_distinct_keys (ext := store_failing [])
           (demo_args (str "false") (str "true"))
           (id_source [str "a"; str "a"]) (fst twin_run) (snd twin_run)
           0 1 _ _ (str "a")); by vm_compute.
Defined.

Lemma distinct_bases_distinct_keys_witness :
  NoDup (Key <$> row_objects (snd good_run))
  ∧ ∀ i p, row_objects (snd good_run) !! i = Some p →
      ∃ prefix b,
        bases (str "source_identifier")
              (rows_before_error (src_rows (id_source [str "a"; str "b"])))
          !! i = Some b
        ∧ Key p = prefix ++ b ++ str ".csv".
Proof.
  apply (distinct_bases_distinct_keys (ext := store_failing [])
           (demo_args (str "true") (str "true"))
           (id_source [str "a"; str "b"]) (fst good_run) (snd good_run)).
  - by vm_compute.
  - vm_compute. apply NoDup_cons. split.
    + intros H. apply list_elem_of_singleton in H. discriminate H.
    + apply NoDup_singleton.
Defined.

Lemma row_object_with_header_witness :
  ∃ r values data,
    src_rows (id_source [str "a"; str "b"]) !! 1%nat = Some (Some r)
    ∧ dict_to_list (header_fields (id_source [str "a"; str "b"])) r
      = Some values
    ∧ encode_ascii
        (join (str ",") (header_fields (id_source [str "a"; str "b"]))
         ++ [10] ++ join (str ",") values ++ [10])
      = Some data
    ∧ Body (nth_object good_run 1) = RowData data.
Proof.
  apply (row_object_with_header (ext := store_failing [])
           (demo_args (str "true") (str "true"))
           (id_source [str "a"; str "b"]) (fst good_run) (snd good_run) 1);
    by vm_compute.
Defined.

Lemma surplus_fields_stop_the_run_witness :
  fst surplus_run ≠ inr tt
  ∧ (length (row_objects (snd surplus_run)) ≤ 0)%nat.
Proof.
  apply (surplus_fields_stop_the_run (ext := store_failing [])
           (demo_args (str "true") (str "true")) surplus_source
           (fst surplus_run) (snd surplus_run) 0 surplus_row [str "x"]).
  - by vm_compute.
  - reflexivity.
  - reflexivity.
Defined.

Lemma read_error_count_witness :
  total (snd broken_run) = length (row_objects (snd broken_run))
  ∧ manifests (snd broken_run) = []
  ∧ src_rows broken_source !! length (row_objects (snd broken_run))
    = Some None
  ∧ ∀ d, d ∈ failure_reports (snd broken_run) →
      f_processed_rows d = length (row_objects (snd broken_run)).
Proof.
  apply (read_error_count (ext := store_failing [])
           (demo_args (str "true") (str "true")) broken_source
           (snd broken_run)).
  by vm_compute.
Defined.

Lemma distinct_keys_all_stored_witness :
  ∃ rows m req,
    src_rows (id_source [str "a"; str "b"]) = Some <$> rows
    ∧ size (stored_rows (snd good_run)) = length rows
    ∧ (∀ p, p ∈ row_objects (snd good_run) →
            stored (snd good_run) !! location p = Some p)
    ∧ manifests (snd good_run) = [m]
    ∧ stored (snd good_run) !! location req = Some req
    ∧ Body req = ManifestJson m
    ∧ m_total_rows m = length rows.
Proof.
  apply (distinct_keys_all_stored (ext := store_failing [])
           (demo_args (str "true") (str "true"))
           (id_source [str "a"; str "b"]) (snd good_run)).
  - by vm_compute.
  - vm_compute. apply NoDup_cons. split.
    + intros H. apply list_elem_of_singleton in H. discriminate H.
    + apply NoDup_singleton.
Defined.
